(** * Schema cross-validator: struct definitions against the listApis catalogue

    A shallow embedding of the checker's [main] function: the construction of
    the command registry, the per-operation matching of API parameters against
    struct fields, and the final report with its exit code.

    The collaborators the program calls into are taken at their interface:
    - the JSON decoder yields the list of [API] entries;
    - go/types yields, per definition, an object with its underlying struct;
    - the two tag regular expressions yield their submatches per field
      (the module [Tag] reads them off the text of a tag);
    - [strings.ToLower] is a parameter of the development;
    - the iteration order of a Go map is a parameter ([MapRange]).

    Two commands of the CLI are covered as far as they compute without
    calling the API: the service that nlb service add builds ([NLB]) and
    the search of sks nodepool show ([SKS]). *)

From stdpp Require Import gmap strings list fin_maps.
From Stdlib Require Import ZArith.

Local Open Scope Z_scope.

(** ** Data model *)

(** [egoscale.APIParam], restricted to the members the checker reads. *)
Record APIParam := {
  Description : string;
  Name : string;
  Required : bool;
  Type_ : string;
}.

(** [egoscale.API]: one operation of the catalogue. *)
Record API := {
  apiName : string;
  IsAsync : bool;
  Params : list APIParam;
  Response : list APIParam;
}.

(** One member of a [*types.Struct]: the [*types.Var] (its name, [IsField],
    [Exported], and [Type().String()]) together with what the two regular
    expressions find in its tag.

    [jsonMatch] is the result of [re.FindStringSubmatch(tag)]: [None] when
    the slice is empty, [Some (name, omit)] for the two capture groups
    (an unmatched optional group is the empty string).
    [docMatch] is the capture group of [reDoc], when it matches. *)
Record StructField := {
  varName : string;
  IsField : bool;
  Exported : bool;
  typeString : string;
  jsonMatch : option (string * string);
  docMatch : option string;
}.

(** [fieldInfo]: the inner details of a field. *)
Record fieldInfo := {
  Var : StructField;
  OmitEmpty : bool;
  Doc : string;
}.

(** The values stored in [command.errors]. Each constructor stands for one
    [fmt.Errorf] call of the program and carries the arguments handed to it:
    - [MissingSerializedName]: Field error: no json annotation found
    - [MissingField]: missing field, with [p.Name], [p.Type], [omit] and
      [p.Description] (the doc clause is printed when the description is
      not empty)
    - [DocumentationMissing]: missing doc, with [p.Description]
    - [DocumentationMismatch]: wrong doc want [p.Description] got [field.Doc]
    - [OptionalityMismatch]: wrong omitempty, want [p.Name] and [omit]
    - [UnknownSpecCategory]: Unknown type [p.Type] <=> [typename]
    - [TypeMismatch]: Expected to be a [expected], got [typename]
    - [ExtraField]: Extra field found *)
Inductive error :=
  | MissingSerializedName
  | MissingField (pname ptype omit description : string)
  | DocumentationMissing (description : string)
  | DocumentationMismatch (description doc : string)
  | OptionalityMismatch (pname omit : string)
  | UnknownSpecCategory (ptype typename : string)
  | TypeMismatch (expected typename : string)
  | ExtraField.

(** [command]: a struct within the source code. *)
Record command := {
  name : string;
  sync : string;
  s : list StructField;
  position : Z;
  fields : gmap string fieldInfo;
  errors : gmap string error;
}.

Definition set_sync (v : string) (c : command) : command :=
  {| name := name c; sync := v; s := s c; position := position c;
     fields := fields c; errors := errors c |}.

Definition set_fields (v : gmap string fieldInfo) (c : command) : command :=
  {| name := name c; sync := sync c; s := s c; position := position c;
     fields := v; errors := errors c |}.

Definition set_errors (v : gmap string error) (c : command) : command :=
  {| name := name c; sync := sync c; s := s c; position := position c;
     fields := fields c; errors := v |}.

(** ** Iteration over Go maps

    A [range] over a map visits every entry once, in an order the language
    leaves open. An instance of [MapRange] fixes one such order. *)
Class MapRange := {
  range : ∀ {A : Type}, gmap string A → list (string * A);
  range_perm : ∀ (A : Type) (m : gmap string A), range m ≡ₚ map_to_list m;
}.

(** The order in which stdpp enumerates a map. *)
Definition range_sorted : MapRange :=
  {| range := λ A, map_to_list;
     range_perm := λ A m, reflexivity (map_to_list m) |}.

(** The opposite order. *)
Definition range_reversed : MapRange :=
  {| range := λ A m, reverse (map_to_list m);
     range_perm := λ A m, reverse_Permutation (map_to_list m) |}.

(** ** The Matcher (the body of the [else] branch of the loop over the APIs) *)

Module Matcher.

(** First inner loop: the mapping from json name to field. *)
Definition collect_field (c : command) (f : StructField) : command :=
  if negb (IsField f) || negb (Exported f) then c
  else match jsonMatch f with
       | None =>
           set_errors (<[varName f := MissingSerializedName]> (errors c)) c
       | Some (jname, jomit) =>
           let omitempty := String.eqb jomit ",omitempty" in
           let doc := match docMatch f with Some d => d | None => ""%string end in
           set_fields (<[jname := {| Var := f; OmitEmpty := omitempty; Doc := doc |}]>
                         (fields c)) c
       end.

Definition collect_fields (c : command) : command :=
  foldl collect_field c (s c).

(** [omit] as computed at the head of the loop over the parameters. *)
Definition omit_of (p : APIParam) : string :=
  if negb (Required p) then ",omitempty"%string else ""%string.

Definition missing_field (p : APIParam) : error :=
  MissingField (Name p) (Type_ p) (omit_of p) (Description p).

(** The documentation check. *)
Definition check_doc (p : APIParam) (field : fieldInfo)
    (errs : gmap string error) : gmap string error :=
  if negb (String.eqb (Doc field) (Description p)) then
    if String.eqb (Doc field) "" then
      <[Name p := DocumentationMissing (Description p)]> errs
    else
      <[Name p := DocumentationMismatch (Description p) (Doc field)]> errs
  else errs.

(** [strings.HasPrefix(typename, "[]")] *)
Definition is_slice (typename : string) : bool :=
  String.prefix "[]" typename.

(** The [switch p.Type] statement: the value of [expected] after it, and the
    error mapping (changed by the [default] branch only). Go's [switch] does
    not fall through: the cases "string", "uuid", "date" and "map" have an
    empty body. *)
Definition type_switch (p : APIParam) (typename : string)
    (errs : gmap string error) : string * gmap string error :=
  let ty := Type_ p in
  if String.eqb ty "short" then
    (if negb (String.eqb typename "int16") then "int16" else "", errs)%string
  else if String.eqb ty "integer" then
    (if negb (String.eqb typename "int") then "int" else "", errs)%string
  else if String.eqb ty "long" then
    (if negb (String.eqb typename "int64") then "int64" else "", errs)%string
  else if String.eqb ty "boolean" then
    (if negb (String.eqb typename "bool") && negb (String.eqb typename "*bool")
     then "bool" else "", errs)%string
  else if String.eqb ty "string" then (""%string, errs)
  else if String.eqb ty "uuid" then (""%string, errs)
  else if String.eqb ty "date" then (""%string, errs)
  else if String.eqb ty "tzdate" then
    (if negb (String.eqb typename "string") then "string" else "", errs)%string
  else if String.eqb ty "list" then
    (if negb (is_slice typename) then "[]string" else "", errs)%string
  else if String.eqb ty "map" then (""%string, errs)
  else if String.eqb ty "set" then
    (if negb (is_slice typename) then "array" else "", errs)%string
  else
    (""%string, <[Name p := UnknownSpecCategory ty typename]> errs).

(** The type check: the [switch] followed by the test of [expected]. *)
Definition check_type (p : APIParam) (typename : string)
    (errs : gmap string error) : gmap string error :=
  let '(expected, errs) := type_switch p typename errs in
  if negb (String.eqb expected "") then
    <[Name p := TypeMismatch expected typename]> errs
  else errs.

(** One iteration of the loop over the parameters. *)
Definition check_param (c : command) (p : APIParam) : command :=
  match fields c !! Name p with
  | None =>
      set_errors (<[Name p := missing_field p]> (errors c)) c
  | Some field =>
      let c := set_fields (delete (Name p) (fields c)) c in
      let typename := typeString (Var field) in
      let c := set_errors (check_doc p field (errors c)) c in
      if Bool.eqb (Required p) (OmitEmpty field) then
        set_errors (<[Name p := OptionalityMismatch (Name p) (omit_of p)]> (errors c)) c
      else
        set_errors (check_type p typename (errors c)) c
  end.

Definition check_params (c : command) (params : list APIParam) : command :=
  foldl check_param c params.

(** Last inner loop: what is left in [command.fields] is extra. *)
Definition extra_fields `{MapRange} (c : command) : command :=
  set_errors
    (foldl (λ errs kv, <[kv.1 := ExtraField]> errs) (errors c) (range (fields c)))
    c.

(** The head of the branch taken when [commands[name]] exists: fresh maps,
    the async marker, and the first inner loop. *)
Definition init (isAsync : bool) (c : command) : command :=
  let c := set_fields ∅ c in
  let c := set_errors ∅ c in
  let c := if isAsync then set_sync " (A)" c else c in
  collect_fields c.

(** The whole branch. *)
Definition run `{MapRange} (isAsync : bool) (params : list APIParam)
    (c : command) : command :=
  let c := init isAsync c in
  let c := check_params c params in
  extra_fields c.

End Matcher.

(** ** The program *)

(** An entry of [info.Defs]: the position of the identifier and the object
    it defines ([None] for a nil object). [objStruct] is the object's
    underlying type when that is a [*types.Struct]. *)
Record Object := {
  objName : string;
  objExported : bool;
  objStruct : option (list StructField);
}.

(** What the program writes to standard output, one constructor per
    [fmt.Printf] call, with its arguments. *)
Inductive line :=
  | SummaryLine (er : Z) (pos : Z) (cname csync : string)
  | ErrorLine (k : string) (e : error)
  | TrailerLine (pos : Z) (cname csync : string) (er : Z)
  | NotFoundLine (cmd : string).

Section Main.

Context `{MapRange}.
Variable ToLower : string → string.

(** The loop over [info.Defs], in the order [defs] lists the entries. *)
Definition add_def (commands : gmap string command)
    (d : Z * option Object) : gmap string command :=
  match d.2 with
  | None => commands
  | Some obj =>
      if negb (objExported obj) then commands
      else match objStruct obj with
           | Some typ =>
               <[ToLower (objName obj) :=
                   {| name := objName obj; sync := ""; s := typ;
                      position := d.1; fields := ∅; errors := ∅ |}]> commands
           | None => commands
           end
  end.

Definition build_commands (defs : list (Z * option Object)) : gmap string command :=
  foldl add_def ∅ defs.

(** The state the loop over [apis.API] works on: the flag [*cmd], the
    registry, and the notices written to standard error (operation name and
    [*rtype]). *)
Record state := {
  cmd : string;
  commands : gmap string command;
  notices : list (string * string);
}.

Definition api_step (rtype : string) (st : state) (a : API) : state :=
  let lname := ToLower (apiName a) in
  let redirect := String.eqb (ToLower (cmd st)) lname && negb (String.eqb rtype "") in
  let lname := if redirect then ToLower rtype else lname in
  let cmd' := if redirect then lname else cmd st in
  let params := if redirect then Response a else Params a in
  let notices' := if redirect then notices st ++ [(apiName a, rtype)] else notices st in
  match commands st !! lname with
  | None =>
      {| cmd := cmd'; commands := commands st; notices := notices' |}
  | Some command =>
      {| cmd := cmd';
         commands := <[lname := Matcher.run (IsAsync a) params command]> (commands st);
         notices := notices' |}
  end.

Definition api_loop (rtype : string) (st : state) (apis : list API) : state :=
  foldl (api_step rtype) st apis.

(** The closing loop over [commands]: the lines printed so far and, when
    [os.Exit] is called inside the loop, its argument. *)
Fixpoint report_loop (cmd : string) (cs : list (string * command))
    (out : list line) : list line * option Z :=
  match cs with
  | [] => (out, None)
  | (lname, c) :: cs =>
      let pos := position c in
      let er := Z.of_nat (size (errors c)) in
      if String.eqb cmd "" then
        if negb (er =? 0) then
          report_loop cmd cs (out ++ [SummaryLine er pos (name c) (sync c)])
        else report_loop cmd cs out
      else if String.eqb (ToLower cmd) lname then
        (out ++ map (λ ke, ErrorLine ke.1 ke.2) (range (errors c))
             ++ [TrailerLine pos (name c) (sync c) er],
         Some er)
      else report_loop cmd cs out
  end.

(** The end of [main]: standard output and the exit code (0 when [main]
    returns). *)
Definition report (cmd : string) (commands : gmap string command) : list line * Z :=
  match report_loop cmd (range commands) [] with
  | (out, Some code) => (out, code)
  | (out, None) =>
      if negb (String.eqb cmd "") then (out ++ [NotFoundLine cmd], 1)
      else (out, 0)
  end.

(** [main], once the catalogue is decoded and the package type-checked. *)
Definition main (cmd0 rtype : string) (apis : list API)
    (defs : list (Z * option Object)) : list line * Z :=
  let st := api_loop rtype
              {| cmd := cmd0; commands := build_commands defs; notices := [] |} apis in
  report (cmd st) (commands st).

End Main.

(** ** Findings and the sequence of assignments

    The checks of the Matcher, read as values: what each check finds for a
    field, and the sequence of assignments to [command.errors] a run
    performs. They are related to the program by the lemmas that follow. *)

Import Matcher.

(** What the documentation check finds. *)
Definition doc_finding (p : APIParam) (field : fieldInfo) : option error :=
  if decide (Doc field = Description p) then None
  else if decide (Doc field = ""%string) then Some (DocumentationMissing (Description p))
  else Some (DocumentationMismatch (Description p) (Doc field)).

(** The case labels of the [switch]. *)
Definition case_labels : list string :=
  ["short"; "integer"; "long"; "boolean"; "string"; "uuid"; "date"; "tzdate";
   "list"; "map"; "set"]%string.

(** The signatures the [switch] accepts for a case label; [None] for a
    string that is no case label. *)
Definition accepts (ty : string) : option (string → bool) :=
  if decide (ty = "short"%string) then Some (λ t, String.eqb t "int16")
  else if decide (ty = "integer"%string) then Some (λ t, String.eqb t "int")
  else if decide (ty = "long"%string) then Some (λ t, String.eqb t "int64")
  else if decide (ty = "boolean"%string) then
    Some (λ t, String.eqb t "bool" || String.eqb t "*bool")
  else if decide (ty = "string"%string) then Some (λ _, true)
  else if decide (ty = "uuid"%string) then Some (λ _, true)
  else if decide (ty = "date"%string) then Some (λ _, true)
  else if decide (ty = "tzdate"%string) then Some (λ t, String.eqb t "string")
  else if decide (ty = "list"%string) then Some is_slice
  else if decide (ty = "map"%string) then Some (λ _, true)
  else if decide (ty = "set"%string) then Some is_slice
  else None.

(** The name the program reports as expected for a case label. *)
Definition expected_name (ty : string) : string :=
  if decide (ty = "short"%string) then "int16"
  else if decide (ty = "integer"%string) then "int"
  else if decide (ty = "long"%string) then "int64"
  else if decide (ty = "boolean"%string) then "bool"
  else if decide (ty = "tzdate"%string) then "string"
  else if decide (ty = "list"%string) then "[]string"
  else if decide (ty = "set"%string) then "array"
  else "".

(** What the type check finds. *)
Definition type_finding (p : APIParam) (typename : string) : option error :=
  match accepts (Type_ p) with
  | None => Some (UnknownSpecCategory (Type_ p) typename)
  | Some ok =>
      if ok typename then None
      else Some (TypeMismatch (expected_name (Type_ p)) typename)
  end.

(** Writing a finding, when there is one. *)
Definition record (k : string) (o : option error)
    (errs : gmap string error) : gmap string error :=
  match o with
  | Some e => <[k := e]> errs
  | None => errs
  end.

(** The error a processed parameter leaves under its own name. *)
Definition outcome (p : APIParam) (field : fieldInfo)
    (before : option error) : option error :=
  if Bool.eqb (Required p) (OmitEmpty field) then
    Some (OptionalityMismatch (Name p) (omit_of p))
  else match type_finding p (typeString (Var field)) with
       | Some e => Some e
       | None => match doc_finding p field with
                 | Some e => Some e
                 | None => before
                 end
       end.

(** The last parameter of a list that bears a given name. *)
Definition last_named (k : string) (params : list APIParam) : option APIParam :=
  last (filter (λ p, Name p = k) params).

(** The assignments [command.errors[k] = e] of a run, in program order. *)
Definition at_key (k : string) (o : option error) : list (string * error) :=
  match o with
  | Some e => [(k, e)]
  | None => []
  end.

Definition collect_field_log (f : StructField) : list (string * error) :=
  if negb (IsField f) || negb (Exported f) then []
  else match jsonMatch f with
       | None => [(varName f, MissingSerializedName)]
       | Some _ => []
       end.

Definition check_param_log (c : command) (p : APIParam) : list (string * error) :=
  match fields c !! Name p with
  | None => [(Name p, missing_field p)]
  | Some field =>
      at_key (Name p) (doc_finding p field) ++
      (if Bool.eqb (Required p) (OmitEmpty field) then
         [(Name p, OptionalityMismatch (Name p) (omit_of p))]
       else at_key (Name p) (type_finding p (typeString (Var field))))
  end.

Fixpoint check_params_log (c : command) (params : list APIParam)
    : list (string * error) :=
  match params with
  | [] => []
  | p :: params => check_param_log c p ++ check_params_log (check_param c p) params
  end.

Definition extra_fields_log `{MapRange} (c : command) : list (string * error) :=
  map (λ kv, (kv.1, ExtraField)) (range (fields c)).

Definition run_log `{MapRange} (isAsync : bool) (params : list APIParam)
    (c : command) : list (string * error) :=
  let c0 := init isAsync c in
  flat_map collect_field_log (s c)
    ++ check_params_log c0 params
    ++ extra_fields_log (check_params c0 params).

(** The last value a sequence of assignments gives to a key. *)
Definition last_assigned (k : string) (log : list (string * error)) : option error :=
  snd <$> last (filter (λ ke, ke.1 = k) log).

(** Performing a sequence of assignments on a mapping. *)
Definition replay (log : list (string * error))
    (errs : gmap string error) : gmap string error :=
  foldl (λ m ke, <[ke.1 := ke.2]> m) errs log.

(** The part of a command that comes from its declaration. *)
Definition decl (c : command) : string * string * list StructField * Z :=
  (name c, sync c, s c, position c).


(** Two commands with the same two maps. *)
Definition same_maps (c c' : command) : Prop :=
  fields c = fields c' ∧ errors c = errors c'.

(** ** Sample inputs *)

Module Sample.

(** [strings.ToLower] on ASCII text. *)
Definition lower_ascii (a : Ascii.ascii) : Ascii.ascii :=
  let n := Ascii.nat_of_ascii a in
  if (65 <=? n)%nat && (n <=? 90)%nat then Ascii.ascii_of_nat (n + 32) else a.

Fixpoint to_lower (t : string) : string :=
  match t with
  | EmptyString => EmptyString
  | String a t => String (lower_ascii a) (to_lower t)
  end.

Definition exported_field (gname gtype : string) (jomit : string)
    (jname : string) (doc : option string) : StructField :=
  {| varName := gname; IsField := true; Exported := true; typeString := gtype;
     jsonMatch := Some (jname, jomit); docMatch := doc |}.

Definition command_of (cname : string) (fs : list StructField) : command :=
  {| name := cname; sync := ""; s := fs; position := 1;
     fields := ∅; errors := ∅ |}.

(** A parameter of a type the [switch] does not know, on a field whose
    omitempty marker is wrong. *)
Definition size_param : APIParam :=
  {| Description := "the size"; Name := "size"; Required := true;
     Type_ := "weirdtype" |}.

Definition size_optional : StructField :=
  exported_field "Size" "int64" ",omitempty" "size" None.

Definition size_plain : StructField :=
  exported_field "Size" "int64" "" "size" None.

(** A parameter without description on a field without documentation. *)
Definition count_param : APIParam :=
  {| Description := ""; Name := "count"; Required := true; Type_ := "integer" |}.

Definition count_field : StructField :=
  exported_field "Count" "int" "" "count" None.

Definition count_long : StructField :=
  exported_field "Count" "int64" "" "count" None.

(** A documented string parameter. *)
Definition zone_param : APIParam :=
  {| Description := "Zone name"; Name := "zone"; Required := true;
     Type_ := "string" |}.

Definition zone_field : StructField :=
  exported_field "Zone" "string" "" "zone" (Some "Zone name"%string).

Definition zone_undocumented : StructField :=
  exported_field "Zone" "string" "" "zone" None.

Definition zone_misdocumented : StructField :=
  exported_field "Zone" "string" "" "zone" (Some "The zone"%string).

(** A required short parameter. *)
Definition port_param : APIParam :=
  {| Description := ""; Name := "port"; Required := true; Type_ := "short" |}.

Definition port_optional : StructField :=
  exported_field "Port" "int" ",omitempty" "port" None.

Definition port_int : StructField :=
  exported_field "Port" "int" "" "port" None.

Definition port_int16 : StructField :=
  exported_field "Port" "int16" "" "port" None.

(** A field no parameter names, and a field without json annotation. *)
Definition extra_field : StructField :=
  exported_field "Extra" "string" "" "extra" None.

Definition untagged_field : StructField :=
  {| varName := "Raw"; IsField := true; Exported := true; typeString := "string";
     jsonMatch := None; docMatch := None |}.

(** A small catalogue and registry. *)
Definition list_zones : API :=
  {| apiName := "listZones"; IsAsync := false;
     Params := [zone_param; count_param]; Response := [size_param] |}.

Definition deploy : API :=
  {| apiName := "deployVirtualMachine"; IsAsync := true;
     Params := [zone_param]; Response := [] |}.

Definition defs : list (Z * option Object) :=
  [(10, Some {| objName := "ListZones"; objExported := true;
                objStruct := Some [zone_undocumented; count_long; extra_field] |});
   (20, None);
   (30, Some {| objName := "Orphan"; objExported := true;
                objStruct := Some [zone_field] |});
   (40, Some {| objName := "hidden"; objExported := false;
                objStruct := Some [zone_field] |})].

End Sample.

(** ** The struct tags

    The two regular expressions of [main], read on the bytes of the tag:
    - [re]: a word boundary, the text json: and a double quote, one or more
      characters other than comma and double quote (group [name]), then
      optionally the text ,omitempty (group [omit]), then a double quote;
    - [reDoc]: a word boundary, the text doc: and a double quote, one or
      more characters other than the double quote (group [doc]), then a
      double quote.
    [FindStringSubmatch] returns the groups of the leftmost match. Both
    classes are greedy and what follows them must be a character they
    exclude, so a starting point has at most one match. *)

Module Tag.

(** The double quote character. *)
Definition dquote : Ascii.ascii := Ascii.ascii_of_nat 34.

(** The comma. *)
Definition comma : Ascii.ascii := Ascii.ascii_of_nat 44.

(** The characters of the class \w: ASCII letters, digits and underscore. *)
Definition is_word (a : Ascii.ascii) : bool :=
  let n := Ascii.nat_of_ascii a in
  ((48 <=? n)%nat && (n <=? 57)%nat)
  || ((65 <=? n)%nat && (n <=? 90)%nat)
  || ((97 <=? n)%nat && (n <=? 122)%nat)
  || (n =? 95)%nat.

(** The class of the group [name]: neither comma nor double quote. *)
Definition name_char (a : Ascii.ascii) : bool :=
  negb (Ascii.eqb a comma) && negb (Ascii.eqb a dquote).

(** The class of the group [doc]: no double quote. *)
Definition doc_char (a : Ascii.ascii) : bool :=
  negb (Ascii.eqb a dquote).

(** What follows a literal text at the head of a string. *)
Fixpoint after (lit t : string) : option string :=
  match lit with
  | EmptyString => Some t
  | String a lit =>
      match t with
      | EmptyString => None
      | String b t => if Ascii.eqb a b then after lit t else None
      end
  end.

(** The longest head made of characters of a class, and what follows. *)
Fixpoint span (ok : Ascii.ascii → bool) (t : string) : string * string :=
  match t with
  | EmptyString => (EmptyString, EmptyString)
  | String a t' =>
      if ok a then let '(w, rest) := span ok t' in (String a w, rest)
      else (EmptyString, t)
  end.

Definition json_open : string := String.append "json:" (String dquote "").
Definition doc_open : string := String.append "doc:" (String dquote "").
Definition omit_close : string := String.append ",omitempty" (String dquote "").
Definition close : string := String dquote "".

(** A match of [re] that starts at the head of [t], past the word
    boundary: the groups [name] and [omit]. *)
Definition re_at (t : string) : option (string * string) :=
  match after json_open t with
  | None => None
  | Some rest =>
      let '(jname, rest) := span name_char rest in
      if String.eqb jname "" then None
      else match after omit_close rest with
           | Some _ => Some (jname, ",omitempty"%string)
           | None =>
               match after close rest with
               | Some _ => Some (jname, ""%string)
               | None => None
               end
           end
  end.

(** A match of [reDoc] that starts at the head of [t]: the group [doc]. *)
Definition reDoc_at (t : string) : option string :=
  match after doc_open t with
  | None => None
  | Some rest =>
      let '(doc, rest) := span doc_char rest in
      if String.eqb doc "" then None
      else match after close rest with
           | Some _ => Some doc
           | None => None
           end
  end.

(** The leftmost match: the starting points are tried from left to right;
    one is at a word boundary when the character before it, if any, is no
    word character (the patterns start with a letter). *)
Fixpoint leftmost {A : Type} (at_head : string → option A) (prev_word : bool)
    (t : string) : option A :=
  match (if prev_word then None else at_head t) with
  | Some r => Some r
  | None =>
      match t with
      | EmptyString => None
      | String a t' => leftmost at_head (is_word a) t'
      end
  end.

(** [re.FindStringSubmatch(tag)], as [jsonMatch] has it. *)
Definition re (tag : string) : option (string * string) :=
  leftmost re_at false tag.

(** [reDoc.FindStringSubmatch(tag)], as [docMatch] has it. *)
Definition reDoc (tag : string) : option string :=
  leftmost reDoc_at false tag.

(** The member of a struct, from its variable and its tag. *)
Definition member (gname : string) (isField exported : bool)
    (gtype tag : string) : StructField :=
  {| varName := gname; IsField := isField; Exported := exported;
     typeString := gtype; jsonMatch := re tag; docMatch := reDoc tag |}.

(** Strings made of the characters of a class. *)
Fixpoint all_chars (ok : Ascii.ascii → bool) (t : string) : bool :=
  match t with
  | EmptyString => true
  | String a t => ok a && all_chars ok t
  end.

(** Characters a json name can be made of without interfering with the doc
    annotation: no comma, no double quote, no colon. *)
Definition plain_char (a : Ascii.ascii) : bool :=
  name_char a && negb (Ascii.eqb a (Ascii.ascii_of_nat 58)).

(** The tag [json:"NAME" doc:"DOC"], with or without [,omitempty]. *)
Definition render (jname : string) (omitempty : bool) (doc : string) : string :=
  String.append json_open
    (String.append jname
       (String.append (if omitempty then omit_close else close)
          (String.append " "
             (String.append doc_open (String.append doc close))))).

End Tag.

(** The members the first inner loop looks at. *)
Definition visible (f : StructField) : bool := IsField f && Exported f.

(** The details the first inner loop stores for a member. *)
Definition info_of (f : StructField) (jomit : string) : fieldInfo :=
  {| Var := f;
     OmitEmpty := String.eqb jomit ",omitempty";
     Doc := match docMatch f with Some d => d | None => ""%string end |}.

(** A parameter and a field that agree on documentation, optionality and
    type. *)
Definition agrees (p : APIParam) (field : fieldInfo) : Prop :=
  Doc field = Description p
  ∧ Required p ≠ OmitEmpty field
  ∧ type_finding p (typeString (Var field)) = None.

(** Two states of a registry entry that stand for the same struct. *)
Definition same_struct (o o' : option command) : Prop :=
  match o, o' with
  | Some c, Some c' => name c' = name c ∧ s c' = s c ∧ position c' = position c
  | None, None => True
  | _, _ => False
  end.

(** The line of the summary for a command. *)
Definition summary_line (c : command) : line :=
  SummaryLine (Z.of_nat (size (errors c))) (position c) (name c) (sync c).

(** The command the loop over [info.Defs] makes of a struct object. *)
Definition command_at (pos : Z) (obj : Object) (typ : list StructField) : command :=
  {| name := objName obj; sync := ""; s := typ; position := pos;
     fields := ∅; errors := ∅ |}.

(** The objects the loop over [info.Defs] registers. *)
Definition registered (obj : Object) : Prop :=
  objExported obj = true ∧ is_Some (objStruct obj).

(** One step of the loop over the catalogue: whether it is redirected to
    the struct of [-type], the key it works on, and the list it checks. *)
Definition redirected (ToLower : string → string) (rtype : string)
    (st : state) (a : API) : bool :=
  String.eqb (ToLower (cmd st)) (ToLower (apiName a)) && negb (String.eqb rtype "").

Definition target (ToLower : string → string) (rtype : string)
    (st : state) (a : API) : string :=
  if redirected ToLower rtype st a then ToLower rtype else ToLower (apiName a).

Definition checked (ToLower : string → string) (rtype : string)
    (st : state) (a : API) : list APIParam :=
  if redirected ToLower rtype st a then Response a else Params a.

(** ** nlb service add: the service the command builds

    The part of [nlbServiceAddCmd.cmdRun] that comes before the first call
    to the API: the service is made of the flags, the healthcheck URI is
    required in http(s) mode, and the ports left at zero get their
    defaults. Flags of type int64 are integers in the int64 range;
    [uint16(x)] keeps the low 16 bits; a [time.Duration] is an int64 and its
    product with [time.Second] wraps around. *)

Module NLB.

Record nlbServiceAddCmd := {
  NetworkLoadBalancer : string;
  Name : string;
  Description : string;
  HealthcheckInterval : Z;
  HealthcheckMode : string;
  HealthcheckPort : Z;
  HealthcheckRetries : Z;
  HealthcheckTLSSNI : string;
  HealthcheckTimeout : Z;
  HealthcheckURI : string;
  InstancePool : string;
  Port : Z;
  Protocol : string;
  Strategy : string;
  TargetPort : Z;
  Zone : string;
}.

(** [exov2.NetworkLoadBalancerServiceHealthcheck], as far as it is set. *)
Record Healthcheck := {
  hcInterval : Z;
  hcMode : string;
  hcPort : Z;
  hcRetries : Z;
  hcTLSSNI : string;
  hcTimeout : Z;
  hcURI : string;
}.

(** [exov2.NetworkLoadBalancerService], as far as it is set. *)
Record Service := {
  svcDescription : string;
  svcHealthcheck : Healthcheck;
  svcName : string;
  svcPort : Z;
  svcProtocol : string;
  svcStrategy : string;
  svcTargetPort : Z;
}.

Definition uint16 (x : Z) : Z := x mod 65536.

Definition wrap64 (x : Z) : Z := (x + 2 ^ 63) mod 2 ^ 64 - 2 ^ 63.

(** [time.Second], in nanoseconds. *)
Definition Second : Z := 1000000000.

(** [time.Duration(x) * time.Second] *)
Definition seconds (x : Z) : Z := wrap64 (x * Second).

Definition with_target_port (v : Z) (svc : Service) : Service :=
  {| svcDescription := svcDescription svc; svcHealthcheck := svcHealthcheck svc;
     svcName := svcName svc; svcPort := svcPort svc;
     svcProtocol := svcProtocol svc; svcStrategy := svcStrategy svc;
     svcTargetPort := v |}.

Definition with_healthcheck_port (v : Z) (svc : Service) : Service :=
  let hc := svcHealthcheck svc in
  {| svcDescription := svcDescription svc;
     svcHealthcheck :=
       {| hcInterval := hcInterval hc; hcMode := hcMode hc; hcPort := v;
          hcRetries := hcRetries hc; hcTLSSNI := hcTLSSNI hc;
          hcTimeout := hcTimeout hc; hcURI := hcURI hc |};
     svcName := svcName svc; svcPort := svcPort svc;
     svcProtocol := svcProtocol svc; svcStrategy := svcStrategy svc;
     svcTargetPort := svcTargetPort svc |}.

(** The message of the only error of this part. *)
Definition uri_required : string :=
  String.append "an healthcheck URI is required in "
    (String Tag.dquote (String.append "http(s)" (String Tag.dquote " mode"))).

(** The service handed to the API, or the error returned before any call. *)
Definition cmdRun_service (c : nlbServiceAddCmd) : string + Service :=
  let service :=
    {| svcDescription := Description c;
       svcHealthcheck :=
         {| hcInterval := seconds (HealthcheckInterval c);
            hcMode := HealthcheckMode c;
            hcPort := uint16 (HealthcheckPort c);
            hcRetries := HealthcheckRetries c;
            hcTLSSNI := HealthcheckTLSSNI c;
            hcTimeout := seconds (HealthcheckTimeout c);
            hcURI := HealthcheckURI c |};
       svcName := Name c;
       svcPort := uint16 (Port c);
       svcProtocol := Protocol c;
       svcStrategy := Strategy c;
       svcTargetPort := uint16 (TargetPort c) |} in
  if String.prefix "http" (hcMode (svcHealthcheck service))
     && String.eqb (hcURI (svcHealthcheck service)) ""
  then inl uri_required
  else
    let service :=
      if svcTargetPort service =? 0
      then with_target_port (svcPort service) service else service in
    let service :=
      if hcPort (svcHealthcheck service) =? 0
      then with_healthcheck_port (svcTargetPort service) service else service in
    inr service.

(** The command with another value of the flag [--port]. *)
Definition with_port (v : Z) (c : nlbServiceAddCmd) : nlbServiceAddCmd :=
  {| NetworkLoadBalancer := NetworkLoadBalancer c; Name := Name c;
     Description := Description c; HealthcheckInterval := HealthcheckInterval c;
     HealthcheckMode := HealthcheckMode c; HealthcheckPort := HealthcheckPort c;
     HealthcheckRetries := HealthcheckRetries c;
     HealthcheckTLSSNI := HealthcheckTLSSNI c;
     HealthcheckTimeout := HealthcheckTimeout c;
     HealthcheckURI := HealthcheckURI c; InstancePool := InstancePool c;
     Port := v; Protocol := Protocol c; Strategy := Strategy c;
     TargetPort := TargetPort c; Zone := Zone c |}.

(** The command as [init] registers it, with its default values. *)
Definition defaults : nlbServiceAddCmd :=
  {| NetworkLoadBalancer := ""; Name := ""; Description := "";
     HealthcheckInterval := 10; HealthcheckMode := "tcp"; HealthcheckPort := 0;
     HealthcheckRetries := 1; HealthcheckTLSSNI := ""; HealthcheckTimeout := 5;
     HealthcheckURI := ""; InstancePool := ""; Port := 0; Protocol := "tcp";
     Strategy := "round-robin"; TargetPort := 0; Zone := "" |}.

End NLB.

(** ** sks nodepool show: the search for the Nodepool

    The loop of [showSKSNodepool] over the Nodepools of the cluster, once
    the cluster is found. The entries of the list are Nodepools (no entry
    is a nil pointer). The members [ID] and [Name] of a Nodepool are
    pointers: [None] is the nil pointer, and reading through it panics. *)

Module SKS.

Record SKSNodepool := {
  ID : option string;
  Name : option string;
  Size : Z;
}.

Inductive found :=
  | Panic
  | NotFound
  | Found (n : SKSNodepool).

(** [*n.ID == np || *n.Name == np], where each read may panic; the second
    operand is not evaluated when the first holds. *)
Definition matches (n : SKSNodepool) (np : string) : option bool :=
  match ID n with
  | None => None
  | Some i =>
      if String.eqb i np then Some true
      else match Name n with
           | None => None
           | Some m => Some (String.eqb m np)
           end
  end.

(** The loop with its [break], and the test that follows it. *)
Fixpoint find_nodepool (nodepools : list SKSNodepool) (np : string) : found :=
  match nodepools with
  | [] => NotFound
  | n :: nodepools =>
      match matches n np with
      | None => Panic
      | Some true => Found n
      | Some false => find_nodepool nodepools np
      end
  end.

End SKS.

(** ** The checks of one parameter *)

Lemma record_lookup k o errs :
  record k o errs !! k = match o with Some e => Some e | None => errs !! k end.
Proof. destruct o; simpl; [apply lookup_insert_eq | done]. Qed.

Lemma record_lookup_ne k k' o errs :
  k ≠ k' → record k o errs !! k' = errs !! k'.
Proof. intros ?. destruct o; simpl; [by apply lookup_insert_ne | done]. Qed.

Lemma check_doc_record p field errs :
  check_doc p field errs = record (Name p) (doc_finding p field) errs.
Proof.
  unfold check_doc, doc_finding.
  destruct (String.eqb_spec (Doc field) (Description p)) as [Heq | Hne]; simpl.
  - by rewrite decide_True.
  - rewrite decide_False by done.
    destruct (String.eqb_spec (Doc field) "") as [He | He].
    + by rewrite decide_True.
    + by rewrite decide_False.
Qed.

Ltac case_label ty lbl :=
  destruct (String.eqb_spec ty lbl) as [?|?];
  [ subst; simpl | rewrite (decide_False (P := ty = lbl)) by done ].

Lemma check_type_record p typename errs :
  check_type p typename errs = record (Name p) (type_finding p typename) errs.
Proof.
  unfold check_type, type_switch, type_finding, accepts, expected_name.
  destruct p as [d n r ty]; simpl.
  case_label ty "short"%string.
  { by destruct (String.eqb typename "int16"). }
  case_label ty "integer"%string.
  { by destruct (String.eqb typename "int"). }
  case_label ty "long"%string.
  { by destruct (String.eqb typename "int64"). }
  case_label ty "boolean"%string.
  { by destruct (String.eqb typename "bool"), (String.eqb typename "*bool"). }
  case_label ty "string"%string; [done|].
  case_label ty "uuid"%string; [done|].
  case_label ty "date"%string; [done|].
  case_label ty "tzdate"%string.
  { by destruct (String.eqb typename "string"). }
  case_label ty "list"%string.
  { by destruct (is_slice typename). }
  case_label ty "map"%string; [done|].
  case_label ty "set"%string.
  { by destruct (is_slice typename). }
  done.
Qed.

Lemma accepts_case_label ty : is_Some (accepts ty) ↔ ty ∈ case_labels.
Proof.
  unfold accepts, case_labels.
  repeat (case_decide; [subst; split; [intros _; set_solver | eauto] |]).
  split; [by intros [? ?] | intros Hin].
  repeat (apply elem_of_cons in Hin as [-> | Hin]; [congruence |]).
  by apply elem_of_nil in Hin.
Qed.

Lemma accepts_unknown ty : ty ∉ case_labels → accepts ty = None.
Proof.
  intros Hty. destruct (accepts ty) eqn:E; [|done].
  exfalso. apply Hty, accepts_case_label. eauto.
Qed.

Lemma fields_check_param c p :
  fields (check_param c p) = delete (Name p) (fields c).
Proof.
  unfold check_param. destruct (fields c !! Name p) as [field|] eqn:E; simpl.
  - by destruct (Bool.eqb _ _).
  - symmetry. by apply delete_id.
Qed.

Lemma errors_check_param_ne c p k :
  k ≠ Name p → errors (check_param c p) !! k = errors c !! k.
Proof.
  intros Hk. unfold check_param.
  destruct (fields c !! Name p) as [field|]; simpl.
  - destruct (Bool.eqb _ _); simpl.
    + rewrite lookup_insert_ne by done.
      rewrite check_doc_record. by apply record_lookup_ne.
    + rewrite check_type_record, check_doc_record.
      by rewrite !record_lookup_ne.
  - by apply lookup_insert_ne.
Qed.

Lemma errors_check_param_absent c p :
  fields c !! Name p = None →
  check_param c p = set_errors (<[Name p := missing_field p]> (errors c)) c.
Proof. intros E. unfold check_param. by rewrite E. Qed.

Lemma errors_check_param_matched c p field :
  fields c !! Name p = Some field →
  errors (check_param c p) !! Name p = outcome p field (errors c !! Name p).
Proof.
  intros E. unfold check_param, outcome. rewrite E; simpl.
  destruct (Bool.eqb _ _); simpl.
  - apply lookup_insert_eq.
  - rewrite check_type_record, check_doc_record, !record_lookup.
    by destruct (type_finding p _), (doc_finding p field).
Qed.

(** ** The loop over the parameters *)

Lemma check_params_cons c p ps :
  check_params c (p :: ps) = check_params (check_param c p) ps.
Proof. reflexivity. Qed.

Lemma check_params_app c ps qs :
  check_params c (ps ++ qs) = check_params (check_params c ps) qs.
Proof. apply foldl_app. Qed.

Lemma fields_check_params c ps k :
  fields (check_params c ps) !! k =
    if decide (k ∈ map Name ps) then None else fields c !! k.
Proof.
  revert c. induction ps as [|p ps IH]; intros c.
  - rewrite decide_False; [done | apply not_elem_of_nil].
  - change (check_params c (p :: ps)) with (check_params (check_param c p) ps).
    rewrite IH, fields_check_param. simpl.
    destruct (decide (k = Name p)) as [->|Hne].
    + rewrite lookup_delete_eq.
      rewrite (decide_True (P := Name p ∈ Name p :: map Name ps))
        by apply list_elem_of_here.
      by case_decide.
    + rewrite lookup_delete_ne by done.
      destruct (decide (k ∈ map Name ps)) as [Hin|Hin].
      * by rewrite decide_True by (by apply list_elem_of_further).
      * rewrite decide_False; [done|].
        intros [?|?]%elem_of_cons; done.
Qed.

Lemma errors_check_params_ne c ps k :
  k ∉ map Name ps → errors (check_params c ps) !! k = errors c !! k.
Proof.
  revert c. induction ps as [|p ps IH]; intros c Hk; [done|].
  unfold check_params in *; simpl in *.
  apply not_elem_of_cons in Hk as [Hne Hk].
  rewrite IH by done. by apply errors_check_param_ne.
Qed.

Lemma last_named_cons k p ps :
  last_named k (p :: ps) =
    match last_named k ps with
    | Some q => Some q
    | None => if decide (Name p = k) then Some p else None
    end.
Proof.
  unfold last_named. rewrite filter_cons.
  case_decide; [|by destruct (last _)].
  rewrite last_cons. by destruct (last _).
Qed.

Lemma last_named_None k ps : last_named k ps = None ↔ k ∉ map Name ps.
Proof.
  induction ps as [|p ps IH].
  - split; [intros _; apply not_elem_of_nil | done].
  - rewrite last_named_cons. simpl. rewrite not_elem_of_cons.
    destruct (last_named k ps) as [q|].
    + split; [done | intros [_ Hk]]. by apply IH in Hk.
    + case_decide as Hn; split; try done.
      * intros [Hne _]. by subst.
      * intros _. split; [done | by apply IH].
Qed.

Lemma last_named_Some k ps q :
  last_named k ps = Some q → q ∈ ps ∧ Name q = k.
Proof.
  unfold last_named. intros Hl. apply last_Some_elem_of in Hl.
  by apply list_elem_of_filter in Hl as [? ?].
Qed.

(** Once a name has no field, every later parameter of that name is
    reported missing, and the last one is what remains. *)
Lemma errors_check_params_absent c ps k :
  fields c !! k = None →
  errors (check_params c ps) !! k =
    match last_named k ps with
    | Some q => Some (missing_field q)
    | None => errors c !! k
    end.
Proof.
  revert c. induction ps as [|p ps IH]; intros c Hk; [done|].
  unfold check_params in *; simpl.
  rewrite IH, last_named_cons.
  - destruct (last_named k ps); [done|].
    case_decide as Hn.
    + subst k. rewrite errors_check_param_absent by done. apply lookup_insert_eq.
    + by apply errors_check_param_ne.
  - rewrite fields_check_param.
    destruct (decide (k = Name p)) as [->|?];
      [apply lookup_delete_eq | by rewrite lookup_delete_ne].
Qed.

(** ** The loop over the remaining fields *)

Lemma foldl_extra_lookup {A} (l : list (string * A)) (errs : gmap string error) k :
  foldl (λ errs kv, <[kv.1 := ExtraField]> errs) errs l !! k =
    if decide (k ∈ l.*1) then Some ExtraField else errs !! k.
Proof.
  revert errs. induction l as [|[k' v] l IH]; intros errs.
  - by case_decide as Hin; [apply elem_of_nil in Hin|].
  - rewrite fmap_cons. simpl. rewrite IH. destruct (decide (k ∈ l.*1)) as [Hin|Hin].
    + by rewrite decide_True by (by apply list_elem_of_further).
    + destruct (decide (k = k')) as [->|Hne].
      * rewrite decide_True by apply list_elem_of_here. apply lookup_insert_eq.
      * rewrite lookup_insert_ne by done.
        rewrite decide_False; [done|]. intros [?|?]%elem_of_cons; done.
Qed.

Lemma elem_of_range_keys `{MapRange} {A} (m : gmap string A) k :
  k ∈ (range m).*1 ↔ is_Some (m !! k).
Proof.
  rewrite (range_perm A m). rewrite list_elem_of_fmap. split.
  - intros [[k' v] [-> Hin]]. apply elem_of_map_to_list in Hin. eauto.
  - intros [v Hv]. exists (k, v). split; [done | by apply elem_of_map_to_list].
Qed.

Lemma errors_extra_fields `{MapRange} c k :
  errors (extra_fields c) !! k =
    match fields c !! k with
    | Some _ => Some ExtraField
    | None => errors c !! k
    end.
Proof.
  unfold extra_fields; simpl. rewrite foldl_extra_lookup.
  destruct (fields c !! k) as [field|] eqn:E.
  - rewrite decide_True; [done|]. apply elem_of_range_keys. eauto.
  - rewrite decide_False; [done|]. rewrite elem_of_range_keys, E. by intros [? ?].
Qed.

Lemma fields_extra_fields `{MapRange} c : fields (extra_fields c) = fields c.
Proof. reflexivity. Qed.

Lemma extra_fields_any_order (R1 R2 : MapRange) c :
  @extra_fields R1 c = @extra_fields R2 c.
Proof.
  unfold extra_fields. f_equal. apply map_eq; intros k.
  rewrite !foldl_extra_lookup.
  destruct (decide (k ∈ (@range R1 _ (fields c)).*1)) as [Hin|Hin].
  - rewrite decide_True; [done|].
    apply (@elem_of_range_keys R2). by apply (@elem_of_range_keys R1) in Hin.
  - rewrite decide_False; [done|].
    intros Hin'. apply Hin.
    apply (@elem_of_range_keys R1). by apply (@elem_of_range_keys R2) in Hin'.
Qed.

(** ** The declaration part of a command is left alone *)

Lemma decl_collect_field c f : decl (collect_field c f) = decl c.
Proof.
  unfold collect_field.
  destruct (negb (IsField f) || negb (Exported f)); [done|].
  by destruct (jsonMatch f) as [[? ?]|].
Qed.

Lemma decl_foldl_collect c fs : decl (foldl collect_field c fs) = decl c.
Proof.
  revert c. induction fs as [|f fs IH]; intros c; [done|].
  simpl. by rewrite IH, decl_collect_field.
Qed.

Lemma decl_check_param c p : decl (check_param c p) = decl c.
Proof.
  unfold check_param. destruct (fields c !! Name p); [|done].
  simpl. by destruct (Bool.eqb _ _).
Qed.

Lemma decl_check_params c ps : decl (check_params c ps) = decl c.
Proof.
  revert c. induction ps as [|p ps IH]; intros c; [done|].
  unfold check_params in *; simpl. by rewrite IH, decl_check_param.
Qed.

Lemma decl_init isAsync c :
  decl (init isAsync c) =
    (name c, if isAsync then " (A)"%string else sync c, s c, position c).
Proof.
  unfold init, collect_fields. rewrite decl_foldl_collect. by destruct isAsync.
Qed.

Lemma decl_run `{MapRange} isAsync ps c :
  decl (run isAsync ps c) =
    (name c, if isAsync then " (A)"%string else sync c, s c, position c).
Proof.
  unfold run. rewrite <- decl_init.
  etransitivity; [|apply decl_check_params]. reflexivity.
Qed.

Lemma init_ext (isAsync : bool) c c' :
  name c = name c' → s c = s c' → position c = position c' →
  (if isAsync then " (A)"%string else sync c) =
    (if isAsync then " (A)"%string else sync c') →
  init isAsync c = init isAsync c'.
Proof.
  destruct c, c'; simpl. intros -> -> -> Hs.
  unfold init; destruct isAsync; simpl in *; by subst.
Qed.

(** ** The first inner loop *)

Lemma errors_collect_field c f k e :
  errors (collect_field c f) !! k = Some e →
  e = MissingSerializedName ∨ errors c !! k = Some e.
Proof.
  unfold collect_field.
  destruct (negb (IsField f) || negb (Exported f)); [by right|].
  destruct (jsonMatch f) as [[? ?]|]; simpl; [by right|].
  destruct (decide (varName f = k)) as [->|Hne].
  - rewrite lookup_insert_eq. intros [= <-]. by left.
  - rewrite lookup_insert_ne by done. by right.
Qed.

Lemma errors_foldl_collect c fs k e :
  errors (foldl collect_field c fs) !! k = Some e →
  e = MissingSerializedName ∨ errors c !! k = Some e.
Proof.
  revert c. induction fs as [|f fs IH]; intros c; [by right|].
  simpl. intros [?|He]%IH; [by left|]. by apply errors_collect_field in He.
Qed.

Lemma errors_init isAsync c k e :
  errors (init isAsync c) !! k = Some e → e = MissingSerializedName.
Proof.
  unfold init, collect_fields. intros [?|He]%errors_foldl_collect; [done|].
  by destruct isAsync.
Qed.

Lemma fields_collect_field_mono c f k :
  is_Some (fields c !! k) → is_Some (fields (collect_field c f) !! k).
Proof.
  intros Hk. unfold collect_field.
  destruct (negb (IsField f) || negb (Exported f)); [done|].
  destruct (jsonMatch f) as [[jname jomit]|]; simpl; [|done].
  destruct (decide (jname = k)) as [->|Hne].
  - rewrite lookup_insert_eq. eauto.
  - by rewrite lookup_insert_ne.
Qed.

Lemma fields_foldl_collect_mono c fs k :
  is_Some (fields c !! k) → is_Some (fields (foldl collect_field c fs) !! k).
Proof.
  revert c. induction fs as [|f fs IH]; intros c Hk; [done|].
  simpl. by apply IH, fields_collect_field_mono.
Qed.

Lemma fields_foldl_collect_elem c fs f k o :
  f ∈ fs → IsField f = true → Exported f = true → jsonMatch f = Some (k, o) →
  is_Some (fields (foldl collect_field c fs) !! k).
Proof.
  revert c. induction fs as [|g fs IH]; intros c Hin Hf He Hj.
  { by apply elem_of_nil in Hin. }
  simpl. apply elem_of_cons in Hin as [<-|Hin]; [|by apply IH].
  apply fields_foldl_collect_mono. unfold collect_field.
  rewrite Hf, He, Hj. simpl. rewrite lookup_insert_eq. eauto.
Qed.

(** Every exported field with a json annotation is in the mapping, under
    its json name. *)
Lemma fields_init_elem isAsync c f k o :
  f ∈ s c → IsField f = true → Exported f = true → jsonMatch f = Some (k, o) →
  is_Some (fields (init isAsync c) !! k).
Proof.
  intros Hin. unfold init, collect_fields.
  apply fields_foldl_collect_elem. by destruct isAsync.
Qed.

(** ** A whole run *)

Lemma errors_run `{MapRange} isAsync ps c k :
  errors (run isAsync ps c) !! k =
    match fields (init isAsync c) !! k with
    | Some field =>
        if decide (k ∈ map Name ps)
        then errors (check_params (init isAsync c) ps) !! k
        else Some ExtraField
    | None => errors (check_params (init isAsync c) ps) !! k
    end.
Proof.
  unfold run. rewrite errors_extra_fields, fields_check_params.
  case_decide; by destruct (fields (init isAsync c) !! k).
Qed.

(** The last parameter of a name: the run leaves under that name what the
    processing of this parameter leaves. *)
Lemma errors_run_last `{MapRange} isAsync pre p post c :
  Name p ∉ map Name post →
  errors (run isAsync (pre ++ p :: post) c) !! Name p =
    errors (check_param (check_params (init isAsync c) pre) p) !! Name p.
Proof.
  intros Hpost. unfold run.
  rewrite errors_extra_fields, fields_check_params.
  rewrite decide_True.
  2:{ rewrite map_app. apply elem_of_app. right. apply list_elem_of_here. }
  rewrite check_params_app, check_params_cons.
  by apply errors_check_params_ne.
Qed.

(** After the parameters, a name some parameter bears has no field left. *)
Lemma errors_run_named `{MapRange} isAsync ps c k :
  k ∈ map Name ps →
  errors (run isAsync ps c) !! k = errors (check_params (init isAsync c) ps) !! k.
Proof.
  intros Hk. unfold run. rewrite errors_extra_fields, fields_check_params.
  by rewrite decide_True.
Qed.

(** No check but the last loop reports an extra field. *)
Lemma doc_finding_not_extra p field : doc_finding p field ≠ Some ExtraField.
Proof. unfold doc_finding. by repeat case_decide. Qed.

Lemma type_finding_not_extra p typename : type_finding p typename ≠ Some ExtraField.
Proof.
  unfold type_finding. destruct (accepts (Type_ p)) as [ok|]; [|done].
  by destruct (ok typename).
Qed.

Lemma errors_check_param_extra c p k :
  errors (check_param c p) !! k = Some ExtraField → errors c !! k = Some ExtraField.
Proof.
  destruct (decide (k = Name p)) as [->|Hne].
  - destruct (fields c !! Name p) as [field|] eqn:E.
    + rewrite (errors_check_param_matched c p field E). unfold outcome.
      destruct (Bool.eqb _ _); [done|].
      pose proof (type_finding_not_extra p (typeString (Var field))).
      pose proof (doc_finding_not_extra p field).
      destruct (type_finding p _); [congruence|].
      destruct (doc_finding p field); [congruence|done].
    + rewrite (errors_check_param_absent c p E). simpl.
      by rewrite lookup_insert_eq.
  - by rewrite errors_check_param_ne.
Qed.

Lemma errors_check_params_extra c ps k :
  errors (check_params c ps) !! k = Some ExtraField → errors c !! k = Some ExtraField.
Proof.
  revert c. induction ps as [|p ps IH]; intros c; [done|].
  rewrite check_params_cons. intros He%IH. by apply errors_check_param_extra in He.
Qed.

Lemma same_maps_collect_field c c' f :
  same_maps c c' → same_maps (collect_field c f) (collect_field c' f).
Proof.
  intros [Hf He]. unfold collect_field.
  destruct (negb (IsField f) || negb (Exported f)); [done|].
  destruct (jsonMatch f) as [[? ?]|]; split; simpl; congruence.
Qed.

Lemma same_maps_foldl_collect c c' fs :
  same_maps c c' → same_maps (foldl collect_field c fs) (foldl collect_field c' fs).
Proof.
  revert c c'. induction fs as [|f fs IH]; intros c c' Hs; [done|].
  simpl. by apply IH, same_maps_collect_field.
Qed.

Lemma same_maps_init isAsync c c' :
  s c = s c' → same_maps (init isAsync c) (init isAsync c').
Proof.
  intros Hs. unfold init, collect_fields.
  replace (s (if isAsync then _ else _)) with (s c) by (by destruct isAsync).
  replace (s (if isAsync then _ else set_errors ∅ (set_fields ∅ c'))) with (s c)
    by (by destruct isAsync).
  apply same_maps_foldl_collect. by destruct isAsync.
Qed.

Lemma same_maps_check_param c c' p :
  same_maps c c' → same_maps (check_param c p) (check_param c' p).
Proof.
  intros [Hf He]. unfold check_param. rewrite <- Hf.
  destruct (fields c !! Name p) as [field|]; simpl.
  - destruct (Bool.eqb _ _); split; simpl; congruence.
  - split; simpl; congruence.
Qed.

Lemma same_maps_check_params c c' ps :
  same_maps c c' → same_maps (check_params c ps) (check_params c' ps).
Proof.
  revert c c'. induction ps as [|p ps IH]; intros c c' Hs; [done|].
  rewrite !check_params_cons. by apply IH, same_maps_check_param.
Qed.

Lemma same_maps_extra_fields `{MapRange} c c' :
  same_maps c c' → same_maps (extra_fields c) (extra_fields c').
Proof. intros [Hf He]. unfold extra_fields. split; simpl; congruence. Qed.

(** ** The sequence of assignments *)

Lemma replay_app l1 l2 errs : replay (l1 ++ l2) errs = replay l2 (replay l1 errs).
Proof. apply foldl_app. Qed.

Lemma replay_at_key k o errs : replay (at_key k o) errs = record k o errs.
Proof. by destruct o. Qed.

Lemma last_assigned_cons k ke log :
  last_assigned k (ke :: log) =
    match last_assigned k log with
    | Some e => Some e
    | None => if decide (ke.1 = k) then Some ke.2 else None
    end.
Proof.
  unfold last_assigned. rewrite filter_cons.
  case_decide; [|by destruct (last _)].
  rewrite last_cons. by destruct (last _).
Qed.

Lemma replay_lookup log errs k :
  replay log errs !! k =
    match last_assigned k log with
    | Some e => Some e
    | None => errs !! k
    end.
Proof.
  revert errs. induction log as [|[k' e'] log IH]; intros errs; [done|].
  change (replay ((k', e') :: log) errs) with (replay log (<[k' := e']> errs)).
  rewrite IH, last_assigned_cons. destruct (last_assigned k log); [done|].
  simpl. case_decide as Hk.
  - subst. apply lookup_insert_eq.
  - by apply lookup_insert_ne.
Qed.

Lemma errors_collect_field_log c f :
  errors (collect_field c f) = replay (collect_field_log f) (errors c).
Proof.
  unfold collect_field, collect_field_log.
  destruct (negb (IsField f) || negb (Exported f)); [done|].
  by destruct (jsonMatch f) as [[? ?]|].
Qed.

Lemma errors_foldl_collect_log c fs :
  errors (foldl collect_field c fs) =
    replay (flat_map collect_field_log fs) (errors c).
Proof.
  revert c. induction fs as [|f fs IH]; intros c; [done|].
  simpl. by rewrite IH, replay_app, errors_collect_field_log.
Qed.

Lemma errors_init_log isAsync c :
  errors (init isAsync c) = replay (flat_map collect_field_log (s c)) ∅.
Proof.
  unfold init, collect_fields. rewrite errors_foldl_collect_log.
  by destruct isAsync.
Qed.

Lemma errors_check_param_log c p :
  errors (check_param c p) = replay (check_param_log c p) (errors c).
Proof.
  unfold check_param, check_param_log.
  destruct (fields c !! Name p) as [field|]; [|done]. simpl.
  rewrite replay_app, replay_at_key, <- check_doc_record.
  destruct (Bool.eqb _ _); simpl; [done|].
  by rewrite replay_at_key, <- check_type_record.
Qed.

Lemma errors_check_params_log c ps :
  errors (check_params c ps) = replay (check_params_log c ps) (errors c).
Proof.
  revert c. induction ps as [|p ps IH]; intros c; [done|].
  rewrite check_params_cons, IH. simpl.
  by rewrite replay_app, errors_check_param_log.
Qed.

Lemma errors_extra_fields_log `{MapRange} c :
  errors (extra_fields c) = replay (extra_fields_log c) (errors c).
Proof.
  unfold extra_fields, extra_fields_log, replay; simpl.
  generalize (errors c). induction (range (fields c)) as [|kv l IH]; intros errs; [done|].
  simpl. apply IH.
Qed.

Lemma errors_run_log `{MapRange} isAsync ps c :
  errors (run isAsync ps c) = replay (run_log isAsync ps c) ∅.
Proof.
  unfold run, run_log.
  rewrite errors_extra_fields_log, errors_check_params_log, errors_init_log.
  by rewrite !replay_app.
Qed.

(** ** The registry and the loop over the catalogue *)

Section MainFacts.

Context `{MapRange}.
Variable ToLower : string → string.

Lemma build_commands_fresh_from (m : gmap string command) defs k c :
  (∀ c', m !! k = Some c' → sync c' = ""%string ∧ errors c' = ∅) →
  foldl (add_def ToLower) m defs !! k = Some c →
  sync c = ""%string ∧ errors c = ∅.
Proof.
  revert m. induction defs as [|d defs IH]; intros m Hm; [apply Hm|].
  simpl. apply IH. intros c'. unfold add_def.
  destruct d.2 as [obj|]; [|apply Hm].
  destruct (negb (objExported obj)); [apply Hm|].
  destruct (objStruct obj) as [typ|]; [|apply Hm].
  destruct (decide (ToLower (objName obj) = k)) as [->|Hne].
  - rewrite lookup_insert_eq. by intros [= <-].
  - rewrite lookup_insert_ne by done. apply Hm.
Qed.

(** A command of the fresh registry has no async marker and no errors. *)
Lemma build_commands_fresh defs k c :
  build_commands ToLower defs !! k = Some c →
  sync c = ""%string ∧ errors c = ∅.
Proof. apply build_commands_fresh_from. intros c'. by rewrite lookup_empty. Qed.

(** An operation of another name leaves the selection and the selected
    command alone. *)
Lemma api_step_other rtype st a :
  ToLower (apiName a) ≠ ToLower (cmd st) →
  cmd (api_step ToLower rtype st a) = cmd st ∧
  commands (api_step ToLower rtype st a) !! ToLower (cmd st)
    = commands st !! ToLower (cmd st).
Proof.
  intros Hne. unfold api_step.
  destruct (String.eqb_spec (ToLower (cmd st)) (ToLower (apiName a))) as [Heq|_];
    [by rewrite Heq in Hne|]. simpl.
  destruct (commands st !! ToLower (apiName a)); simpl; [|done].
  split; [done|]. by apply lookup_insert_ne.
Qed.

Lemma api_loop_other rtype st apis :
  (∀ a, a ∈ apis → ToLower (apiName a) ≠ ToLower (cmd st)) →
  cmd (api_loop ToLower rtype st apis) = cmd st ∧
  commands (api_loop ToLower rtype st apis) !! ToLower (cmd st)
    = commands st !! ToLower (cmd st).
Proof.
  revert st. induction apis as [|a apis IH]; intros st Hall; [done|].
  destruct (api_step_other rtype st a) as [Hc Hm].
  { apply Hall, list_elem_of_here. }
  unfold api_loop in *; simpl.
  destruct (IH (api_step ToLower rtype st a)) as [Hc' Hm'].
  { intros a' Ha'. rewrite Hc. by apply Hall, list_elem_of_further. }
  rewrite Hc in Hc', Hm'. by rewrite Hc', Hm'.
Qed.

(** The selection is the flag, or the lower-cased [-type]. *)
Lemma api_loop_cmd rtype st apis :
  cmd (api_loop ToLower rtype st apis) = cmd st
  ∨ cmd (api_loop ToLower rtype st apis) = ToLower rtype.
Proof.
  revert st. induction apis as [|a apis IH]; intros st; [by left|].
  unfold api_loop in *; simpl.
  destruct (IH (api_step ToLower rtype st a)) as [->| ->]; [|by right].
  unfold api_step.
  destruct (String.eqb (ToLower (cmd st)) (ToLower (apiName a))
            && negb (String.eqb rtype "")).
  - right. by destruct (commands st !! ToLower rtype).
  - left. by destruct (commands st !! ToLower (apiName a)).
Qed.

(** Without [-type], the selection is never redirected. *)
Lemma api_loop_no_rtype st apis :
  cmd (api_loop ToLower "" st apis) = cmd st.
Proof.
  revert st. induction apis as [|a apis IH]; intros st; [done|].
  unfold api_loop in *; simpl. rewrite IH. unfold api_step.
  rewrite andb_false_r.
  by destruct (commands st !! ToLower (apiName a)).
Qed.

(** ** The report *)



Lemma report_loop_found sel cs c out :
  sel ≠ ""%string → NoDup cs.*1 → (ToLower sel, c) ∈ cs →
  report_loop ToLower sel cs out =
    (out ++ map (λ ke, ErrorLine ke.1 ke.2) (range (errors c))
         ++ [TrailerLine (position c) (name c) (sync c) (Z.of_nat (size (errors c)))],
     Some (Z.of_nat (size (errors c)))).
Proof.
  intros Hsel. revert out.
  induction cs as [|[k c'] cs IH]; intros out Hnd Hin.
  { by apply elem_of_nil in Hin. }
  simpl in *. apply NoDup_cons in Hnd as [Hk Hnd].
  destruct (String.eqb_spec sel "") as [?|_]; [done|].
  apply elem_of_cons in Hin as [Heq|Hin].
  - injection Heq as <- <-. by rewrite String.eqb_refl.
  - destruct (String.eqb_spec (ToLower sel) k) as [<-|_]; [|by apply IH].
    exfalso. apply Hk. apply list_elem_of_fmap. by exists (ToLower sel, c).
Qed.

Lemma range_NoDup {A} (m : gmap string A) : NoDup (range m).*1.
Proof. rewrite (range_perm A m). apply NoDup_fst_map_to_list. Qed.

Lemma elem_of_range {A} (m : gmap string A) k v :
  (k, v) ∈ range m ↔ m !! k = Some v.
Proof. rewrite (range_perm A m). apply elem_of_map_to_list. Qed.

Lemma range_empty {A} : range (∅ : gmap string A) = [].
Proof.
  apply Permutation_nil_r. rewrite (range_perm A ∅). by rewrite map_to_list_empty.
Qed.


Lemma report_found sel m c :
  sel ≠ ""%string → m !! ToLower sel = Some c →
  report ToLower sel m =
    (map (λ ke, ErrorLine ke.1 ke.2) (range (errors c))
       ++ [TrailerLine (position c) (name c) (sync c) (Z.of_nat (size (errors c)))],
     Z.of_nat (size (errors c))).
Proof.
  intros Hsel Hc. unfold report.
  rewrite (report_loop_found sel (range m) c []); [done..| apply range_NoDup |].
  by apply elem_of_range.
Qed.


End MainFacts.

(** ** The scenarios of the specification, run on the model *)

Example scenario_1_documented_field :
  errors (run (H := range_sorted) false [Sample.zone_param]
            (Sample.command_of "ListZones" [Sample.zone_field])) = ∅.
Proof. by vm_compute. Qed.

Example scenario_2_documentation_missing :
  errors (run (H := range_sorted) false [Sample.zone_param]
            (Sample.command_of "ListZones" [Sample.zone_undocumented]))
  = {[ "zone"%string := DocumentationMissing "Zone name" ]}.
Proof. by vm_compute. Qed.

Example scenario_3_type_mismatch :
  errors (run (H := range_sorted) false [Sample.count_param]
            (Sample.command_of "ListZones" [Sample.count_long]))
  = {[ "count"%string := TypeMismatch "int" "int64" ]}.
Proof. by vm_compute. Qed.

Example scenario_4_extra_field :
  errors (run (H := range_sorted) false []
            (Sample.command_of "ListZones" [Sample.extra_field]))
  = {[ "extra"%string := ExtraField ]}.
Proof. by vm_compute. Qed.

Example scenario_5_unknown_category :
  errors (run (H := range_sorted) false [Sample.size_param]
            (Sample.command_of "Resize" [Sample.size_plain]))
  = {[ "size"%string := UnknownSpecCategory "weirdtype" "int64" ]}.
Proof. by vm_compute. Qed.

Example untagged_field_is_reported_under_its_go_name :
  errors (run (H := range_sorted) true [Sample.zone_param]
            (Sample.command_of "ListZones" [Sample.untagged_field; Sample.zone_misdocumented]))
  = {[ "Raw"%string := MissingSerializedName;
       "zone"%string := DocumentationMismatch "Zone name" "The zone" ]}.
Proof. by vm_compute. Qed.

(** [-cmd listZones -type Orphan]: the struct Orphan is checked against the
    response of listZones. *)
Example redirected_to_response_type :
  main (H := range_reversed) Sample.to_lower "listZones" "Orphan"
    [Sample.list_zones; Sample.deploy] Sample.defs
  = ([ErrorLine "zone" ExtraField;
      ErrorLine "size" (MissingField "size" "weirdtype" "" "the size");
      TrailerLine 30 "Orphan" "" 2], 2).
Proof. by vm_compute. Qed.

(** Summary mode lists the commands that have errors. *)
Example summary_lists_commands_with_errors :
  main (H := range_sorted) Sample.to_lower "" ""
    [Sample.list_zones; Sample.deploy] Sample.defs
  = ([SummaryLine 3 10 "ListZones" ""], 0).
Proof. by vm_compute. Qed.

(** ** The properties of the specification *)

Ltac by_compute := apply (bool_decide_unpack _); vm_compute; exact I.

(** C1, as the program has it: for a matched field whose parameter type is
    no case label of the [switch] and whose omitempty marker is the negation
    of the parameter's required flag, processing the parameter records
    [UnknownSpecCategory] under the field name, on top of whatever the
    documentation check recorded; this is what the run leaves under that
    name when no later parameter repeats it. *)
Theorem C1_unknown_category_overrides_documentation `{MapRange}
    isAsync pre p post c field :
  fields (check_params (init isAsync c) pre) !! Name p = Some field →
  Type_ p ∉ case_labels →
  Required p ≠ OmitEmpty field →
  let c1 := check_params (init isAsync c) pre in
  let unknown := UnknownSpecCategory (Type_ p) (typeString (Var field)) in
  errors (check_param c1 p) = <[Name p := unknown]> (check_doc p field (errors c1))
  ∧ (Name p ∉ map Name post →
     errors (run isAsync (pre ++ p :: post) c) !! Name p = Some unknown).
Proof.
  intros Hfield Hty Hopt c1 unknown.
  assert (errors (check_param c1 p)
          = <[Name p := unknown]> (check_doc p field (errors c1))) as Hstep.
  { unfold check_param. fold c1 in Hfield. rewrite Hfield. simpl.
    destruct (Bool.eqb_spec (Required p) (OmitEmpty field)) as [?|_]; [done|].
    simpl. rewrite check_type_record. unfold type_finding.
    by rewrite accepts_unknown. }
  split; [done|]. intros Hpost.
  rewrite errors_run_last by done. fold c1. rewrite Hstep.
  apply lookup_insert_eq.
Qed.

Lemma C1_witness :
  errors (run (H := range_sorted) false [Sample.size_param]
            (Sample.command_of "Resize" [Sample.size_plain])) !! "size"%string
  = Some (UnknownSpecCategory "weirdtype" "int64").
Proof.
  refine (proj2 (C1_unknown_category_overrides_documentation
                   (H := range_sorted) false [] Sample.size_param []
                   (Sample.command_of "Resize" [Sample.size_plain])
                   {| Var := Sample.size_plain; OmitEmpty := false; Doc := "" |}
                   _ _ _) _).
  - reflexivity.
  - by_compute.
  - simpl. discriminate.
  - apply not_elem_of_nil.
Defined.

(** C1, as stated, fails: with a wrong omitempty marker the type of the
    parameter is never looked at, and the optionality error stays. *)
Lemma C1_counterexample :
  let c := Sample.command_of "Resize" [Sample.size_optional] in
  is_Some (fields (init false c) !! "size"%string)
  ∧ (Type_ Sample.size_param ∉ case_labels)
  ∧ errors (run (H := range_sorted) false [Sample.size_param] c) !! "size"%string
    = Some (OptionalityMismatch "size" "")
  ∧ errors (run (H := range_sorted) false [Sample.size_param] c) !! "size"%string
    ≠ Some (UnknownSpecCategory "weirdtype" "int64").
Proof.
  simpl. split; [by eexists|]. split; [by_compute|].
  split; [by vm_compute|]. vm_compute. discriminate.
Qed.

(** C2, as the program has it: for a matched field, the documentation check
    records [DocumentationMissing] when the documentation is empty and the
    description is not, [DocumentationMismatch] when the documentation is not
    empty and differs from the description, and nothing when the two are
    equal (both empty included). What it leaves is the outcome of the
    parameter when the omitempty marker is right and the type is accepted,
    and the outcome of the run under that name when no later parameter
    repeats it. *)
Theorem C2_documentation_check `{MapRange} isAsync pre p post c field :
  fields (check_params (init isAsync c) pre) !! Name p = Some field →
  let c1 := check_params (init isAsync c) pre in
  (∀ errs, Doc field = ""%string → Description p ≠ ""%string →
     check_doc p field errs = <[Name p := DocumentationMissing (Description p)]> errs)
  ∧ (∀ errs, Doc field ≠ ""%string → Doc field ≠ Description p →
     check_doc p field errs
       = <[Name p := DocumentationMismatch (Description p) (Doc field)]> errs)
  ∧ (∀ errs, Doc field = Description p → check_doc p field errs = errs)
  ∧ (Required p ≠ OmitEmpty field →
     type_finding p (typeString (Var field)) = None →
     errors (check_param c1 p) = check_doc p field (errors c1)
     ∧ (Name p ∉ map Name post →
        errors (run isAsync (pre ++ p :: post) c) !! Name p
          = check_doc p field (errors c1) !! Name p)).
Proof.
  intros Hfield c1. fold c1 in Hfield.
  split; [|split; [|split]].
  - intros errs Hdoc Hdesc. rewrite check_doc_record. unfold doc_finding.
    rewrite decide_False by congruence. by rewrite decide_True.
  - intros errs Hdoc Hne. rewrite check_doc_record. unfold doc_finding.
    by rewrite !decide_False.
  - intros errs Heq. rewrite check_doc_record. unfold doc_finding.
    by rewrite decide_True.
  - intros Hopt Hty.
    assert (errors (check_param c1 p) = check_doc p field (errors c1)) as Hstep.
    { unfold check_param. rewrite Hfield. simpl.
      destruct (Bool.eqb_spec (Required p) (OmitEmpty field)) as [?|_]; [done|].
      simpl. by rewrite check_type_record, Hty. }
    split; [done|]. intros Hpost.
    rewrite errors_run_last by done. fold c1. by rewrite Hstep.
Qed.

Lemma C2_witness :
  errors (run (H := range_sorted) false [Sample.zone_param]
            (Sample.command_of "ListZones" [Sample.zone_undocumented])) !! "zone"%string
  = Some (DocumentationMissing "Zone name").
Proof.
  pose proof (C2_documentation_check (H := range_sorted) false []
                Sample.zone_param []
                (Sample.command_of "ListZones" [Sample.zone_undocumented])
                {| Var := Sample.zone_undocumented; OmitEmpty := false; Doc := "" |}
                eq_refl) as (Hmissing & _ & _ & Hrest).
  destruct Hrest as [_ Hrun]; [simpl; discriminate | reflexivity |].
  etransitivity; [exact (Hrun (not_elem_of_nil _)) |].
  rewrite Hmissing; [apply lookup_insert_eq | reflexivity | simpl; discriminate].
Defined.

(** C2, as stated, fails: when documentation and description are both
    empty, nothing is recorded for the field. *)
Lemma C2_counterexample :
  let c := Sample.command_of "ListZones" [Sample.count_field] in
  (Doc <$> fields (init false c) !! "count"%string) = Some ""%string
  ∧ errors (run (H := range_sorted) false [Sample.count_param] c) !! "count"%string
    = None
  ∧ errors (run (H := range_sorted) false [Sample.count_param] c) !! "count"%string
    ≠ Some (DocumentationMissing (Description Sample.count_param)).
Proof. simpl. split; [done|]. split; [by vm_compute|]. vm_compute. discriminate. Qed.

(** C3: for a matched pair whose omitempty marker equals the required flag
    (either direction), processing the parameter records
    [OptionalityMismatch] on top of the documentation check and goes no
    further, and the run leaves no [TypeMismatch] and no
    [UnknownSpecCategory] under that name. When the marker is the negation
    of the flag, no [OptionalityMismatch] is recorded. *)
Theorem C3_optionality_law `{MapRange} isAsync pre p post c field :
  fields (check_params (init isAsync c) pre) !! Name p = Some field →
  let c1 := check_params (init isAsync c) pre in
  let result := errors (run isAsync (pre ++ p :: post) c) !! Name p in
  (Required p = OmitEmpty field →
     errors (check_param c1 p)
       = <[Name p := OptionalityMismatch (Name p) (omit_of p)]>
           (check_doc p field (errors c1))
     ∧ (∀ expected actual, result ≠ Some (TypeMismatch expected actual))
     ∧ (∀ raw actual, result ≠ Some (UnknownSpecCategory raw actual))
     ∧ (Name p ∉ map Name post →
        result = Some (OptionalityMismatch (Name p) (omit_of p))))
  ∧ (Required p ≠ OmitEmpty field →
     ∀ n o, errors (check_param c1 p) !! Name p ≠ Some (OptionalityMismatch n o)).
Proof.
  intros Hfield c1 result. fold c1 in Hfield. split.
  - intros Hopt.
    assert (errors (check_param c1 p)
            = <[Name p := OptionalityMismatch (Name p) (omit_of p)]>
                (check_doc p field (errors c1))) as Hstep.
    { unfold check_param. rewrite Hfield. simpl.
      by destruct (Bool.eqb_spec (Required p) (OmitEmpty field)). }
    assert (result = match last_named (Name p) post with
                     | Some q => Some (missing_field q)
                     | None => Some (OptionalityMismatch (Name p) (omit_of p))
                     end) as Hres.
    { unfold result. rewrite errors_run_named.
      2:{ rewrite map_app. apply elem_of_app. right. apply list_elem_of_here. }
      rewrite check_params_app, check_params_cons. fold c1.
      rewrite errors_check_params_absent.
      - destruct (last_named (Name p) post); [done|].
        rewrite Hstep. apply lookup_insert_eq.
      - rewrite fields_check_param. apply lookup_delete_eq. }
    split; [done|].
    split; [|split].
    + intros expected actual. rewrite Hres. by destruct (last_named _ _).
    + intros raw actual. rewrite Hres. by destruct (last_named _ _).
    + intros Hpost. rewrite Hres.
      by apply last_named_None in Hpost as ->.
  - intros Hopt n o.
    rewrite (errors_check_param_matched c1 p field Hfield). unfold outcome.
    destruct (Bool.eqb_spec (Required p) (OmitEmpty field)) as [?|_]; [done|].
    unfold type_finding, doc_finding.
    destruct (accepts (Type_ p)) as [ok|]; [|done].
    destruct (ok _); [|done].
    repeat case_decide; try done.
    assert (Name p ∉ map Name pre) as Hpre.
    { intros Hin. unfold c1 in Hfield. rewrite fields_check_params in Hfield.
      by rewrite decide_True in Hfield. }
    unfold c1. rewrite errors_check_params_ne by done.
    intros He. by apply errors_init in He.
Qed.

Lemma C3_witness :
  let c := Sample.command_of "Resize" [Sample.size_optional] in
  let result := errors (run (H := range_sorted) false [Sample.size_param] c)
                  !! "size"%string in
  result = Some (OptionalityMismatch "size" "")
  ∧ ∀ expected actual, result ≠ Some (TypeMismatch expected actual).
Proof.
  pose proof (C3_optionality_law (H := range_sorted) false []
                Sample.size_param []
                (Sample.command_of "Resize" [Sample.size_optional])
                {| Var := Sample.size_optional; OmitEmpty := true; Doc := "" |}
                eq_refl) as [Hlaw _].
  destruct (Hlaw eq_refl) as (_ & Htype & _ & Hres).
  split; [apply Hres, not_elem_of_nil | apply Htype].
Defined.

(** C4: the error mapping of a run holds, under every name, the last error
    the run assigned to that name (and so at most one). For a matched field
    the order of the assignments is documentation, then optionality or type:
    a type or category finding, coming last, stands whatever the
    documentation check found. *)
Theorem C4_last_assignment_survives `{MapRange} isAsync params c k :
  errors (run isAsync params c) = replay (run_log isAsync params c) ∅
  ∧ errors (run isAsync params c) !! k = last_assigned k (run_log isAsync params c)
  ∧ (∀ e1 e2, errors (run isAsync params c) !! k = Some e1 →
       errors (run isAsync params c) !! k = Some e2 → e1 = e2)
  ∧ (∀ c1 p, errors (check_param c1 p) !! Name p =
       match fields c1 !! Name p with
       | Some field => outcome p field (errors c1 !! Name p)
       | None => Some (missing_field p)
       end).
Proof.
  split; [apply errors_run_log|].
  split; [|split].
  - rewrite errors_run_log, replay_lookup, lookup_empty.
    by destruct (last_assigned _ _).
  - congruence.
  - intros c1 p. destruct (fields c1 !! Name p) as [field|] eqn:E.
    + by apply errors_check_param_matched.
    + rewrite errors_check_param_absent by done. apply lookup_insert_eq.
Qed.

(** C5: a parameter whose name is no key of the field mapping is reported
    missing and nothing else is done for it: the step writes the
    [MissingField] error and leaves the rest of the command as it is. The
    run holds, under that name, the [MissingField] error of the last
    parameter of that name, which is the parameter itself when no later one
    repeats the name. *)
Theorem C5_missing_field `{MapRange} isAsync params c p :
  p ∈ params →
  fields (init isAsync c) !! Name p = None →
  (∀ c', fields c' !! Name p = None →
     check_param c' p = set_errors (<[Name p := missing_field p]> (errors c')) c')
  ∧ (∃ q, q ∈ params ∧ Name q = Name p
          ∧ last_named (Name p) params = Some q
          ∧ errors (run isAsync params c) !! Name p = Some (missing_field q))
  ∧ (∀ pre post, params = pre ++ p :: post → Name p ∉ map Name post →
       errors (run isAsync params c) !! Name p = Some (missing_field p)).
Proof.
  intros Hin Hnone.
  assert (errors (run isAsync params c) !! Name p =
            match last_named (Name p) params with
            | Some q => Some (missing_field q)
            | None => errors (init isAsync c) !! Name p
            end) as Hres.
  { rewrite errors_run, Hnone. by apply errors_check_params_absent. }
  split; [intros c'; apply errors_check_param_absent|].
  split.
  - destruct (last_named (Name p) params) as [q|] eqn:Hq.
    + destruct (last_named_Some _ _ _ Hq) as [? ?]. by exists q.
    + apply last_named_None in Hq. exfalso. apply Hq.
      apply list_elem_of_fmap. by exists p.
  - intros pre post -> Hpost. rewrite errors_run_last by done.
    rewrite errors_check_param_absent; [apply lookup_insert_eq|].
    rewrite fields_check_params. by case_decide.
Qed.

Lemma C5_witness :
  errors (run (H := range_sorted) false [Sample.zone_param; Sample.count_param]
            (Sample.command_of "ListZones" [Sample.zone_field])) !! "count"%string
  = Some (MissingField "count" "integer" "" "").
Proof.
  refine (proj2 (proj2 (C5_missing_field (H := range_sorted) false
                   [Sample.zone_param; Sample.count_param]
                   (Sample.command_of "ListZones" [Sample.zone_field])
                   Sample.count_param _ _))
            [Sample.zone_param] [] eq_refl _).
  - apply list_elem_of_further, list_elem_of_here.
  - reflexivity.
  - apply not_elem_of_nil.
Defined.

(** C6: after the parameters, the fields of the mapping that no parameter
    names are exactly the fields left in the mapping, and exactly the names
    the run reports as [ExtraField]. In terms of the struct: every exported
    field with a json annotation whose json name no parameter bears is
    reported as [ExtraField] under that json name. *)
Theorem C6_extra_fields `{MapRange} isAsync params c k :
  (errors (run isAsync params c) !! k = Some ExtraField
   ↔ is_Some (fields (init isAsync c) !! k) ∧ k ∉ map Name params)
  ∧ (is_Some (fields (run isAsync params c) !! k)
     ↔ is_Some (fields (init isAsync c) !! k) ∧ k ∉ map Name params)
  ∧ (∀ f o, f ∈ s c → IsField f = true → Exported f = true →
       jsonMatch f = Some (k, o) → k ∉ map Name params →
       errors (run isAsync params c) !! k = Some ExtraField).
Proof.
  assert (is_Some (fields (init isAsync c) !! k) ∧ k ∉ map Name params →
          errors (run isAsync params c) !! k = Some ExtraField) as Hextra.
  { rewrite errors_run. intros [[field ->] Hk]. by rewrite decide_False. }
  split; [|split].
  3:{ intros f o Hin Hf He Hj Hk. apply Hextra. split; [|done].
      by apply (fields_init_elem isAsync c f k o). }
  - rewrite errors_run. split.
    + destruct (fields (init isAsync c) !! k) as [field|] eqn:E.
      * case_decide as Hk; [|by eauto].
        intros He%errors_check_params_extra. by apply errors_init in He.
      * intros He%errors_check_params_extra. by apply errors_init in He.
    + rewrite <- errors_run. apply Hextra.
  - unfold run. rewrite fields_extra_fields, fields_check_params.
    case_decide as Hk; split.
    + by intros [? ?].
    + by intros [_ ?].
    + done.
    + by intros [? _].
Qed.

(** C7, as the program has it: for a matched field of a parameter of type
    "short" whose omitempty marker is the negation of the required flag
    (for a required parameter: a field without omitempty), the signature
    "int16" is accepted and the documentation check has the last word; any
    other signature is recorded as [TypeMismatch] with "int16" and the
    signature of the field, and the run holds it under that name when no
    later parameter repeats it. *)
Theorem C7_short_accepts_int16_only `{MapRange} isAsync pre p post c field :
  fields (check_params (init isAsync c) pre) !! Name p = Some field →
  Type_ p = "short"%string →
  Required p ≠ OmitEmpty field →
  let c1 := check_params (init isAsync c) pre in
  let actual := typeString (Var field) in
  (actual = "int16"%string →
     errors (check_param c1 p) = check_doc p field (errors c1))
  ∧ (actual ≠ "int16"%string →
     errors (check_param c1 p)
       = <[Name p := TypeMismatch "int16" actual]> (check_doc p field (errors c1))
     ∧ (Name p ∉ map Name post →
        errors (run isAsync (pre ++ p :: post) c) !! Name p
          = Some (TypeMismatch "int16" actual))).
Proof.
  intros Hfield Hty Hopt c1 actual. fold c1 in Hfield.
  assert (errors (check_param c1 p)
          = record (Name p) (type_finding p actual) (check_doc p field (errors c1)))
    as Hstep.
  { unfold check_param. rewrite Hfield. simpl.
    destruct (Bool.eqb_spec (Required p) (OmitEmpty field)) as [?|_]; [done|].
    simpl. by rewrite check_type_record. }
  assert (type_finding p actual =
            if String.eqb actual "int16" then None
            else Some (TypeMismatch "int16" actual)) as Hfind.
  { unfold type_finding. by rewrite Hty. }
  rewrite Hstep, Hfind. split.
  - intros ->. by rewrite String.eqb_refl.
  - intros Hne. destruct (String.eqb_spec actual "int16") as [?|_]; [done|].
    split; [done|]. intros Hpost. rewrite errors_run_last by done.
    fold c1. rewrite Hstep, Hfind.
    destruct (String.eqb_spec actual "int16") as [?|_]; [done|].
    apply lookup_insert_eq.
Qed.

Lemma C7_witness :
  errors (run (H := range_sorted) false [Sample.port_param]
            (Sample.command_of "AddPort" [Sample.port_int])) !! "port"%string
  = Some (TypeMismatch "int16" "int").
Proof.
  destruct (C7_short_accepts_int16_only (H := range_sorted) false []
              Sample.port_param []
              (Sample.command_of "AddPort" [Sample.port_int])
              {| Var := Sample.port_int; OmitEmpty := false; Doc := "" |})
    as [_ Hother].
  - reflexivity.
  - reflexivity.
  - simpl. discriminate.
  - destruct Hother as [_ Hrun]; [simpl; discriminate|].
    exact (Hrun (not_elem_of_nil _)).
Defined.

(** C7, as stated, fails: a required short parameter on a field that
    carries omitempty gets the optionality error, whatever the signature of
    the field. *)
Lemma C7_counterexample :
  let c := Sample.command_of "AddPort" [Sample.port_optional] in
  Required Sample.port_param = true
  ∧ Type_ Sample.port_param = "short"%string
  ∧ (typeString <$> (Var <$> fields (init false c) !! "port"%string))
    = Some "int"%string
  ∧ errors (run (H := range_sorted) false [Sample.port_param] c) !! "port"%string
    = Some (OptionalityMismatch "port" "")
  ∧ errors (run (H := range_sorted) false [Sample.port_param] c) !! "port"%string
    ≠ Some (TypeMismatch "int16" "int").
Proof.
  simpl. split; [done|]. split; [done|].
  split; [by vm_compute|]. split; [by vm_compute|].
  vm_compute. discriminate.
Qed.

Lemma C4_witness :
  let c := Sample.command_of "ListZones" [Sample.zone_undocumented; Sample.count_long] in
  let params := [Sample.zone_param; Sample.count_param] in
  run_log (H := range_sorted) false params c
    = [("zone"%string, DocumentationMissing "Zone name");
       ("count"%string, TypeMismatch "int" "int64")]
  ∧ errors (run (H := range_sorted) false params c) !! "count"%string
    = Some (TypeMismatch "int" "int64").
Proof.
  split; [reflexivity|].
  etransitivity;
    [exact (proj1 (proj2 (C4_last_assignment_survives (H := range_sorted) false
                            [Sample.zone_param; Sample.count_param]
                            (Sample.command_of "ListZones"
                               [Sample.zone_undocumented; Sample.count_long])
                            "count"%string)))|].
  reflexivity.
Defined.

Lemma C6_witness :
  errors (run (H := range_sorted) false [Sample.zone_param]
            (Sample.command_of "ListZones" [Sample.zone_field; Sample.extra_field]))
    !! "extra"%string
  = Some ExtraField.
Proof.
  apply (proj2 (proj2 (C6_extra_fields (H := range_sorted) false [Sample.zone_param]
                  (Sample.command_of "ListZones" [Sample.zone_field; Sample.extra_field])
                  "extra"%string)) Sample.extra_field ""%string).
  - apply list_elem_of_further, list_elem_of_here.
  - reflexivity.
  - reflexivity.
  - reflexivity.
  - by_compute.
Defined.



(** C9: a run is a function of the parameters and of the struct of the
    command. The order in which the remaining fields are visited does not
    show in the result; what the command held in its two maps before the
    run does not show either; and running again on the result changes
    nothing. *)
Theorem C9_matcher_deterministic (R1 R2 : MapRange) isAsync params c :
  @run R1 isAsync params c = @run R2 isAsync params c
  ∧ @run R1 isAsync params (@run R2 isAsync params c) = @run R1 isAsync params c
  ∧ (∀ c', s c' = s c →
       errors (@run R1 isAsync params c') = errors (@run R2 isAsync params c)).
Proof.
  assert (∀ d, @run R1 isAsync params d = @run R2 isAsync params d) as Horder.
  { intros d. unfold run. apply extra_fields_any_order. }
  split; [apply Horder|]. split.
  - rewrite <- (Horder c).
    assert (init isAsync (@run R1 isAsync params c) = init isAsync c) as Hinit.
    { pose proof (decl_run (H := R1) isAsync params c) as Hd.
      unfold decl in Hd. injection Hd as Hn Hsy Hs Hp.
      apply init_ext; try done.
      destruct isAsync; [done | exact Hsy]. }
    unfold run at 1. by rewrite Hinit.
  - intros c' Hs. rewrite <- (Horder c). unfold run.
    apply (same_maps_extra_fields (H := R1)), same_maps_check_params.
    by apply same_maps_init.
Qed.

Lemma C9_witness :
  let c := Sample.command_of "ListZones"
             [Sample.zone_undocumented; Sample.extra_field; Sample.untagged_field] in
  let stale := set_errors {[ "zone"%string := ExtraField ]}
                 (set_fields {[ "old"%string :=
                     {| Var := Sample.extra_field; OmitEmpty := true; Doc := "" |} ]} c) in
  errors (run (H := range_reversed) false [Sample.zone_param] stale)
  = errors (run (H := range_sorted) false [Sample.zone_param] c).
Proof.
  exact (proj2 (proj2 (C9_matcher_deterministic range_reversed range_sorted false
                         [Sample.zone_param]
                         (Sample.command_of "ListZones"
                            [Sample.zone_undocumented; Sample.extra_field;
                             Sample.untagged_field])))
           _ eq_refl).
Defined.

(** C10: in detail mode, when the selected name is a command of the
    registry and no operation of the catalogue bears that name, the program
    prints the trailer of the command, with no async marker and 0 errors,
    and exits with code 0. *)
Theorem C10_unmatched_command_reports_zero `{MapRange} (ToLower : string → string)
    cmd0 rtype apis defs c :
  cmd0 ≠ ""%string →
  build_commands ToLower defs !! ToLower cmd0 = Some c →
  Forall (λ a, ToLower (apiName a) ≠ ToLower cmd0) apis →
  main ToLower cmd0 rtype apis defs
    = ([TrailerLine (position c) (name c) "" 0], 0).
Proof.
  intros Hsel Hc Hapis. unfold main.
  destruct (api_loop_other ToLower rtype
              {| cmd := cmd0; commands := build_commands ToLower defs; notices := [] |}
              apis) as [Hcmd Hcommands].
  { intros a Ha. simpl. by apply (proj1 (Forall_forall _ _) Hapis). }
  simpl in Hcmd, Hcommands. rewrite Hcmd.
  rewrite (report_found ToLower cmd0 _ c) by (by rewrite ?Hcommands).
  destruct (build_commands_fresh ToLower defs _ c Hc) as [-> ->].
  by rewrite range_empty.
Qed.

Lemma C10_witness :
  main (H := range_sorted) Sample.to_lower "orphan" ""
    [Sample.list_zones; Sample.deploy] Sample.defs
  = ([TrailerLine 30 "Orphan" "" 0], 0).
Proof.
  apply (C10_unmatched_command_reports_zero (H := range_sorted) Sample.to_lower
           "orphan" "" [Sample.list_zones; Sample.deploy] Sample.defs
           {| name := "Orphan"; sync := ""; s := [Sample.zone_field];
              position := 30; fields := ∅; errors := ∅ |}).
  - discriminate.
  - by vm_compute.
  - repeat constructor; vm_compute; discriminate.
Defined.

(** ** The struct tags *)

Section TagFacts.

Import Tag.
Import Stdlib.Strings.Ascii.

Lemma append_cons x (a b : string) :
  String.append (String x a) b = String x (String.append a b).
Proof. reflexivity. Qed.

Lemma append_nil (b : string) : String.append "" b = b.
Proof. reflexivity. Qed.

Lemma append_assoc (a b c : string) :
  String.append (String.append a b) c = String.append a (String.append b c).
Proof.
  induction a as [|x a IH]; [done|]. by rewrite !append_cons, IH.
Qed.

Lemma append_empty_r (a : string) : String.append a "" = a.
Proof. induction a as [|x a IH]; [done|]. by rewrite append_cons, IH. Qed.

Lemma after_append lit t : after lit (String.append lit t) = Some t.
Proof.
  induction lit as [|a lit IH]; [done|].
  rewrite append_cons. simpl. by rewrite Ascii.eqb_refl.
Qed.

Lemma after_Some lit t r : after lit t = Some r → t = String.append lit r.
Proof.
  revert t. induction lit as [|a lit IH]; intros t; simpl; [by intros [= ->]|].
  destruct t as [|b t]; [done|].
  destruct (Ascii.eqb_spec a b) as [->|]; [|done].
  intros Hr. by rewrite (IH _ Hr), append_cons.
Qed.

Lemma span_append ok t :
  String.append (span ok t).1 (span ok t).2 = t.
Proof.
  induction t as [|a t IH]; simpl; [done|].
  destruct (ok a); [|done].
  destruct (span ok t) as [w r]; simpl in *. by rewrite append_cons, IH.
Qed.

Lemma span_all ok t : all_chars ok (span ok t).1 = true.
Proof.
  induction t as [|a t IH]; simpl; [done|].
  destruct (ok a) eqn:E; [|done].
  destruct (span ok t) as [w r]; simpl in *. by rewrite E.
Qed.

Lemma span_stop ok w a r :
  all_chars ok w = true → ok a = false →
  span ok (String.append w (String a r)) = (w, String a r).
Proof.
  intros Hw Ha. induction w as [|b w IH].
  - rewrite append_nil. simpl. by rewrite Ha.
  - rewrite append_cons. simpl in *.
    apply andb_true_iff in Hw as [-> Hw]. by rewrite IH.
Qed.

Lemma leftmost_Some {A} (at_head : string → option A) b t r :
  leftmost at_head b t = Some r →
  ∃ pre post, t = String.append pre post ∧ at_head post = Some r.
Proof.
  revert b. induction t as [|a t IH]; intros b; simpl.
  - destruct b; [done|]. destruct (at_head "") eqn:E; [|done].
    intros [= <-]. by exists ""%string, ""%string.
  - destruct (if b then None else at_head (String a t)) as [r'|] eqn:E.
    + intros [= <-]. destruct b; [done|]. by exists ""%string, (String a t).
    + intros (pre & post & -> & Hr)%IH. by exists (String a pre), post.
Qed.

Lemma re_at_Some t jname jomit :
  re_at t = Some (jname, jomit) →
  jname ≠ ""%string ∧ all_chars name_char jname = true
  ∧ (jomit = ""%string ∨ jomit = ",omitempty"%string)
  ∧ ∃ post, t = String.append json_open
                   (String.append jname
                      (String.append jomit (String.append close post))).
Proof.
  unfold re_at. destruct (after json_open t) as [rest|] eqn:Hopen; [|done].
  apply after_Some in Hopen as ->.
  pose proof (span_append name_char rest) as Happ.
  pose proof (span_all name_char rest) as Hall.
  destruct (span name_char rest) as [w r]; cbn [fst snd] in *. subst rest.
  destruct (String.eqb_spec w "") as [|Hne]; [done|].
  destruct (after omit_close r) as [post|] eqn:Homit.
  - intros [= <- <-]. apply after_Some in Homit as ->.
    repeat split; [done..| by right |]. by exists post.
  - destruct (after close r) as [post|] eqn:Hclose; [|done].
    intros [= <- <-]. apply after_Some in Hclose as ->.
    repeat split; [done..| by left |]. by exists post.
Qed.

Lemma reDoc_at_Some t doc :
  reDoc_at t = Some doc →
  doc ≠ ""%string ∧ all_chars doc_char doc = true
  ∧ ∃ post, t = String.append doc_open
                   (String.append doc (String.append close post)).
Proof.
  unfold reDoc_at. destruct (after doc_open t) as [rest|] eqn:Hopen; [|done].
  apply after_Some in Hopen as ->.
  pose proof (span_append doc_char rest) as Happ.
  pose proof (span_all doc_char rest) as Hall.
  destruct (span doc_char rest) as [w r]; cbn [fst snd] in *. subst rest.
  destruct (String.eqb_spec w "") as [|Hne]; [done|].
  destruct (after close r) as [post|] eqn:Hclose; [|done].
  intros [= <-]. apply after_Some in Hclose as ->.
  repeat split; [done..|]. by exists post.
Qed.

Lemma after_cons a lit b t :
  after (String a lit) (String b t) = if Ascii.eqb a b then after lit t else None.
Proof. reflexivity. Qed.

Lemma leftmost_cons {A} (at_head : string → option A) b a t :
  leftmost at_head b (String a t) =
    match (if b then None else at_head (String a t)) with
    | Some r => Some r
    | None => leftmost at_head (is_word a) t
    end.
Proof. reflexivity. Qed.

Lemma leftmost_head {A} (at_head : string → option A) t r :
  at_head t = Some r → leftmost at_head false t = Some r.
Proof. intros Hr. destruct t; simpl; by rewrite Hr. Qed.

Lemma all_chars_impl (ok ok' : Ascii.ascii → bool) t :
  (∀ a, ok a = true → ok' a = true) →
  all_chars ok t = true → all_chars ok' t = true.
Proof.
  intros Himpl. induction t as [|a t IH]; simpl; [done|].
  intros [Ha Ht]%andb_true_iff. by rewrite (Himpl a Ha), IH.
Qed.

Lemma plain_name_char a : plain_char a = true → name_char a = true.
Proof. unfold plain_char. by intros [? _]%andb_true_iff. Qed.

Lemma reDoc_at_head c t : Ascii.eqb "d"%char c = false → reDoc_at (String c t) = None.
Proof.
  intros Hc. unfold reDoc_at, doc_open.
  by rewrite append_cons, after_cons, Hc.
Qed.

Lemma leftmost_reDoc_skip b c t :
  Ascii.eqb "d"%char c = false →
  leftmost reDoc_at b (String c t) = leftmost reDoc_at (is_word c) t.
Proof.
  intros Hc. rewrite leftmost_cons, reDoc_at_head by done. by destruct b.
Qed.

(** The text doc: followed by a double quote does not start inside a plain
    name that a double quote or a comma ends. *)
Lemma no_doc_open_in_plain w a rest :
  all_chars plain_char w = true → a = dquote ∨ a = comma →
  after doc_open (String.append w (String a rest)) = None.
Proof.
  intros Hw Ha. unfold doc_open.
  rewrite !append_cons, append_nil.
  assert (∀ lit, after (String "d"%char lit) (String a rest) = None
               ∧ after (String "o"%char lit) (String a rest) = None
               ∧ after (String "c"%char lit) (String a rest) = None
               ∧ after (String ":"%char lit) (String a rest) = None) as Hend.
  { intros lit. rewrite !after_cons. by destruct Ha as [-> | ->]. }
  destruct w as [|c1 w]; [rewrite append_nil; apply Hend|].
  rewrite append_cons, after_cons.
  destruct (Ascii.eqb_spec "d"%char c1) as [<-|]; [|done].
  destruct w as [|c2 w]; [rewrite append_nil; apply Hend|].
  rewrite append_cons, after_cons.
  destruct (Ascii.eqb_spec "o"%char c2) as [<-|]; [|done].
  destruct w as [|c3 w]; [rewrite append_nil; apply Hend|].
  rewrite append_cons, after_cons.
  destruct (Ascii.eqb_spec "c"%char c3) as [<-|]; [|done].
  destruct w as [|c4 w]; [rewrite append_nil; apply Hend|].
  rewrite append_cons, after_cons.
  destruct (Ascii.eqb_spec ":"%char c4) as [<-|]; [|done].
  exfalso. revert Hw. cbn [all_chars].
  replace (plain_char ":"%char) with false by reflexivity.
  by rewrite !andb_false_r, ?andb_false_l.
Qed.

Lemma leftmost_reDoc_skip_plain b w a rest :
  all_chars plain_char w = true → a = dquote ∨ a = comma →
  leftmost reDoc_at b (String.append w (String a rest))
    = leftmost reDoc_at false rest.
Proof.
  intros Hw Ha. revert b. induction w as [|c w IH]; intros b.
  - rewrite append_nil, leftmost_reDoc_skip; by destruct Ha as [-> | ->].
  - pose proof (no_doc_open_in_plain (String c w) a rest Hw Ha) as Hno.
    rewrite append_cons in *. rewrite leftmost_cons.
    unfold reDoc_at at 1. rewrite Hno.
    simpl in Hw. apply andb_true_iff in Hw as [_ Hw].
    rewrite IH by done. by destruct b.
Qed.

Lemma reDoc_at_open doc post :
  doc ≠ ""%string → all_chars doc_char doc = true →
  reDoc_at (String.append doc_open (String.append doc (String.append close post)))
    = Some doc.
Proof.
  intros Hne Hall. unfold reDoc_at. rewrite after_append.
  change (String.append close post) with (String dquote post).
  rewrite span_stop by done.
  destruct (String.eqb_spec doc "") as [|_]; [done|].
  change (String dquote post) with (String.append close post).
  by rewrite after_append.
Qed.

Lemma re_at_open jname (omitempty : bool) post :
  jname ≠ ""%string → all_chars name_char jname = true →
  re_at (String.append json_open
           (String.append jname
              (String.append (if omitempty then omit_close else close) post)))
    = Some (jname, if omitempty then ",omitempty"%string else ""%string).
Proof.
  intros Hne Hall. unfold re_at. rewrite after_append. destruct omitempty.
  - change (String.append omit_close post)
      with (String ","%char (String.append (String.append "omitempty" close) post)).
    rewrite span_stop by done.
    destruct (String.eqb_spec jname "") as [|_]; [done|].
    change (String ","%char (String.append (String.append "omitempty" close) post))
      with (String.append omit_close post).
    by rewrite after_append.
  - change (String.append close post) with (String dquote post).
    rewrite span_stop by done.
    destruct (String.eqb_spec jname "") as [|_]; [done|].
    change (after omit_close (String dquote post)) with (@None string).
    by change (after close (String dquote post)) with (Some post).
Qed.

(** X2: the conventional tag is read back. For a json name that is not
    empty and has no comma, double quote or colon, and a documentation that
    is not empty and has no double quote, the tag made of the json
    annotation (with or without ,omitempty), a space and the doc annotation
    yields that name, that marker and that documentation. *)
Theorem X2_conventional_tag_round_trip (jname doc : string) (omitempty : bool) :
  jname ≠ ""%string → Tag.all_chars Tag.plain_char jname = true →
  doc ≠ ""%string → Tag.all_chars Tag.doc_char doc = true →
  Tag.re (Tag.render jname omitempty doc)
    = Some (jname, if omitempty then ",omitempty"%string else ""%string)
  ∧ Tag.reDoc (Tag.render jname omitempty doc) = Some doc.
Proof.
  intros Hn Hplain Hd Hdoc. split.
  - apply leftmost_head. unfold render. apply re_at_open; [done|].
    revert Hplain. apply all_chars_impl, plain_name_char.
  - assert (leftmost reDoc_at (is_word " "%char)
              (String.append doc_open (String.append doc close))
            = Some doc) as Htail.
    { change (is_word " "%char) with false.
      apply leftmost_head.
      rewrite <- (append_empty_r (String.append doc close)), append_assoc.
      by apply reDoc_at_open. }
    unfold reDoc. destruct omitempty.
    + change (render jname true doc)
        with (String.append "json:"
                (String dquote
                   (String.append jname
                      (String ","%char
                         (String.append "omitempty"
                            (String dquote
                               (String " "%char
                                  (String.append doc_open
                                     (String.append doc close))))))))).
      rewrite !append_cons, !append_nil.
      rewrite !leftmost_reDoc_skip by reflexivity.
      rewrite leftmost_reDoc_skip_plain by (done || by right).
      rewrite !leftmost_reDoc_skip by reflexivity.
      apply Htail.
    + change (render jname false doc)
        with (String.append "json:"
                (String dquote
                   (String.append jname
                      (String dquote
                         (String " "%char
                            (String.append doc_open
                               (String.append doc close))))))).
      rewrite !append_cons, append_nil.
      rewrite !leftmost_reDoc_skip by reflexivity.
      rewrite leftmost_reDoc_skip_plain by (done || by left).
      rewrite leftmost_reDoc_skip by reflexivity.
      apply Htail.
Qed.

End TagFacts.

(** X1: what the two expressions capture is in the tag. A json match has a
    name that is not empty and has neither comma nor double quote, its
    second group is empty or the text ,omitempty, and the tag contains the
    annotation as matched; a doc match is not empty, has no double quote,
    and the tag contains it between double quotes after the text doc: *)
Theorem X1_tag_captures_are_in_the_tag (tag : string) :
  (∀ jname jomit, Tag.re tag = Some (jname, jomit) →
     jname ≠ ""%string ∧ Tag.all_chars Tag.name_char jname = true
     ∧ (jomit = ""%string ∨ jomit = ",omitempty"%string)
     ∧ ∃ pre post,
         tag = String.append pre
                 (String.append Tag.json_open
                    (String.append jname
                       (String.append jomit (String.append Tag.close post)))))
  ∧ (∀ doc, Tag.reDoc tag = Some doc →
     doc ≠ ""%string ∧ Tag.all_chars Tag.doc_char doc = true
     ∧ ∃ pre post,
         tag = String.append pre
                 (String.append Tag.doc_open
                    (String.append doc (String.append Tag.close post)))).
Proof.
  split.
  - intros jname jomit (pre & t & -> & Hat)%leftmost_Some.
    apply re_at_Some in Hat as (? & ? & ? & post & ->).
    repeat split; [done..|]. by exists pre, post.
  - intros doc (pre & t & -> & Hat)%leftmost_Some.
    apply reDoc_at_Some in Hat as (? & ? & post & ->).
    repeat split; [done..|]. by exists pre, post.
Qed.


Lemma X1_witness :
  ∃ pre post,
    Tag.render "id" true "the ID"
    = String.append pre
        (String.append Tag.json_open
           (String.append "id"
              (String.append ",omitempty" (String.append Tag.close post)))).
Proof.
  destruct (proj1 (X1_tag_captures_are_in_the_tag (Tag.render "id" true "the ID"))
              "id"%string ",omitempty"%string eq_refl)
    as (_ & _ & _ & Hin).
  exact Hin.
Defined.

Lemma X2_witness :
  Tag.re (Tag.render "id" true "the ID") = Some ("id"%string, ",omitempty"%string)
  ∧ Tag.reDoc (Tag.render "id" true "the ID") = Some "the ID"%string.
Proof.
  apply (X2_conventional_tag_round_trip "id" "the ID" true).
  - discriminate.
  - reflexivity.
  - discriminate.
  - reflexivity.
Defined.

(** ** More on the Matcher *)

Lemma collect_field_hidden c f : visible f = false → collect_field c f = c.
Proof.
  unfold visible, collect_field. intros Hv.
  replace (negb (IsField f) || negb (Exported f)) with true; [done|].
  by destruct (IsField f), (Exported f).
Qed.

Lemma collect_field_visible c f :
  visible f = true →
  collect_field c f =
    match jsonMatch f with
    | None => set_errors (<[varName f := MissingSerializedName]> (errors c)) c
    | Some (jname, jomit) => set_fields (<[jname := info_of f jomit]> (fields c)) c
    end.
Proof.
  unfold visible, collect_field. intros [-> ->]%andb_true_iff. simpl.
  by destruct (jsonMatch f) as [[? ?]|].
Qed.

Lemma same_maps_foldl_collect_visible c c' fs :
  same_maps c c' →
  same_maps (foldl collect_field c (filter (λ f, visible f = true) fs))
            (foldl collect_field c' fs).
Proof.
  revert c c'. induction fs as [|f fs IH]; intros c c' Hs; [done|].
  rewrite filter_cons. destruct (visible f) eqn:Hv.
  - rewrite decide_True by done. simpl. by apply IH, same_maps_collect_field.
  - rewrite decide_False by done. simpl. apply IH.
    by rewrite (collect_field_hidden c' f).
Qed.

(** X3: members that are no fields or are not exported play no part: a
    command whose struct is reduced to its exported fields gets the same
    errors and the same remaining fields. *)
Theorem X3_hidden_members_ignored `{MapRange} isAsync params c c' :
  s c' = filter (λ f, visible f = true) (s c) →
  errors (run isAsync params c') = errors (run isAsync params c)
  ∧ fields (run isAsync params c') = fields (run isAsync params c).
Proof.
  intros Hs.
  assert (same_maps (run isAsync params c') (run isAsync params c)) as [? ?];
    [|done].
  unfold run. apply same_maps_extra_fields, same_maps_check_params.
  unfold init, collect_fields.
  replace (s (if isAsync then _ else set_errors ∅ (set_fields ∅ c')))
    with (filter (λ f, visible f = true) (s c)) by (by destruct isAsync).
  replace (s (if isAsync then _ else set_errors ∅ (set_fields ∅ c)))
    with (s c) by (by destruct isAsync).
  apply same_maps_foldl_collect_visible. by destruct isAsync.
Qed.

Lemma X3_witness :
  let hidden := {| varName := "cache"; IsField := true; Exported := false;
                   typeString := "int"; jsonMatch := Some ("zone"%string, ""%string);
                   docMatch := None |} in
  errors (run (H := range_sorted) false [Sample.zone_param]
            (Sample.command_of "ListZones" [Sample.zone_field]))
  = errors (run (H := range_sorted) false [Sample.zone_param]
              (Sample.command_of "ListZones" [Sample.zone_field; hidden])).
Proof.
  intros hidden.
  exact (proj1 (X3_hidden_members_ignored (H := range_sorted) false
                  [Sample.zone_param]
                  (Sample.command_of "ListZones" [Sample.zone_field; hidden])
                  (Sample.command_of "ListZones" [Sample.zone_field]) eq_refl)).
Defined.

Lemma fields_collect_field_other c f k :
  (∀ o, visible f = true → jsonMatch f ≠ Some (k, o)) →
  fields (collect_field c f) !! k = fields c !! k.
Proof.
  intros Hk. destruct (visible f) eqn:Hv.
  - rewrite collect_field_visible by done.
    destruct (jsonMatch f) as [[jname jomit]|] eqn:Hj; [|done].
    simpl. apply lookup_insert_ne. intros ->. by apply (Hk jomit).
  - by rewrite collect_field_hidden.
Qed.

Lemma fields_foldl_collect_other c fs k :
  (∀ g o, g ∈ fs → visible g = true → jsonMatch g ≠ Some (k, o)) →
  fields (foldl collect_field c fs) !! k = fields c !! k.
Proof.
  revert c. induction fs as [|f fs IH]; intros c Hk; [done|].
  simpl. rewrite IH.
  - apply fields_collect_field_other. intros o. apply Hk, list_elem_of_here.
  - intros g o Hg. by apply Hk, list_elem_of_further.
Qed.

(** X4: when several exported fields carry the same json name, the mapping
    keeps the last of them. *)
Theorem X4_last_field_of_a_name_wins isAsync c pre f post k jomit :
  s c = pre ++ f :: post →
  visible f = true → jsonMatch f = Some (k, jomit) →
  (∀ g o, g ∈ post → visible g = true → jsonMatch g ≠ Some (k, o)) →
  fields (init isAsync c) !! k = Some (info_of f jomit).
Proof.
  intros Hs Hv Hj Hpost. unfold init, collect_fields.
  replace (s (if isAsync then _ else set_errors ∅ (set_fields ∅ c)))
    with (pre ++ f :: post) by (by destruct isAsync).
  rewrite foldl_app. simpl.
  rewrite fields_foldl_collect_other by done.
  rewrite collect_field_visible, Hj by done. apply lookup_insert_eq.
Qed.

Lemma X4_witness :
  fields (init false
            (Sample.command_of "ListZones"
               [Sample.zone_undocumented; Sample.zone_field; Sample.extra_field]))
    !! "zone"%string
  = Some {| Var := Sample.zone_field; OmitEmpty := false; Doc := "Zone name" |}.
Proof.
  apply (X4_last_field_of_a_name_wins false
           (Sample.command_of "ListZones"
              [Sample.zone_undocumented; Sample.zone_field; Sample.extra_field])
           [Sample.zone_undocumented] Sample.zone_field [Sample.extra_field]
           "zone"%string ""%string); try reflexivity.
  intros g o Hg _. apply list_elem_of_singleton in Hg as ->. discriminate.
Defined.

(** X5: an exported field whose tag does not contain the text json:
    followed by a double quote is not entered in the mapping; it is
    reported under its Go name as lacking a json annotation. *)
Theorem X5_tag_without_json_annotation c gname gtype tag :
  (∀ pre post,
     tag ≠ String.append pre (String.append Tag.json_open post)) →
  let f := Tag.member gname true true gtype tag in
  collect_field c f
    = set_errors (<[gname := MissingSerializedName]> (errors c)) c
  ∧ fields (collect_field c f) = fields c.
Proof.
  intros Htag f.
  assert (Tag.re tag = None) as Hre.
  { destruct (Tag.re tag) as [[jname jomit]|] eqn:E; [|done].
    apply leftmost_Some in E as (pre & t & -> & Hat).
    apply re_at_Some in Hat as (_ & _ & _ & post & ->).
    by destruct (Htag pre _ eq_refl). }
  assert (collect_field c f
          = set_errors (<[gname := MissingSerializedName]> (errors c)) c) as Hc.
  { unfold collect_field, f. simpl. by rewrite Hre. }
  split; [done|]. by rewrite Hc.
Qed.

Lemma X5_witness :
  errors (collect_field (Sample.command_of "ListZones" [])
            (Tag.member "Zone" true true "string" ""))
  = {[ "Zone"%string := MissingSerializedName ]}.
Proof.
  assert (∀ pre post : string,
            ""%string ≠ String.append pre (String.append Tag.json_open post))
    as Hno by (intros pre post Heq; destruct pre; discriminate Heq).
  rewrite (proj1 (X5_tag_without_json_annotation
                    (Sample.command_of "ListZones" []) "Zone" "string" "" Hno)).
  reflexivity.
Defined.

(** X6: the documentation read from a tag never holds a double quote, so
    a parameter whose description holds one gets a documentation error on
    every field it is matched with. *)
Theorem X6_description_with_quote_never_matches p field tag errs :
  Doc field = match Tag.reDoc tag with Some d => d | None => ""%string end →
  Tag.all_chars Tag.doc_char (Description p) = false →
  check_doc p field errs !! Name p
    = Some (if String.eqb (Doc field) ""
            then DocumentationMissing (Description p)
            else DocumentationMismatch (Description p) (Doc field)).
Proof.
  intros Hdoc Hq.
  assert (Tag.all_chars Tag.doc_char (Doc field) = true) as Hall.
  { rewrite Hdoc. destruct (Tag.reDoc tag) as [d|] eqn:E; [|done].
    apply leftmost_Some in E as (pre & t & -> & Hat).
    by apply reDoc_at_Some in Hat as (_ & ? & _). }
  unfold check_doc.
  destruct (String.eqb_spec (Doc field) (Description p)) as [Heq|_].
  - rewrite Heq in Hall. congruence.
  - simpl. destruct (String.eqb (Doc field) ""); apply lookup_insert_eq.
Qed.

Lemma X6_witness :
  let p := {| Description := String.append "the " (String.append Tag.close "zone");
              Name := "zone"; Required := true; Type_ := "string" |} in
  let tag := Tag.render "zone" false "the zone" in
  check_doc p (info_of (Tag.member "Zone" true true "string" tag) "") ∅
    !! "zone"%string
  = Some (DocumentationMismatch (Description p) "the zone").
Proof.
  intros p tag.
  exact (X6_description_with_quote_never_matches p
           (info_of (Tag.member "Zone" true true "string" tag) "") tag ∅
           eq_refl eq_refl).
Defined.

Lemma errors_collect_field_origin c f k e :
  errors (collect_field c f) !! k = Some e →
  errors c !! k = Some e
  ∨ (e = MissingSerializedName ∧ visible f = true ∧ jsonMatch f = None
     ∧ varName f = k).
Proof.
  destruct (visible f) eqn:Hv.
  - rewrite collect_field_visible by done.
    destruct (jsonMatch f) as [[jname jomit]|]; [by left|]. simpl.
    destruct (decide (varName f = k)) as [Hk|Hk].
    + rewrite Hk, lookup_insert_eq. intros [= <-]. by right.
    + rewrite lookup_insert_ne by done. by left.
  - rewrite collect_field_hidden by done. by left.
Qed.

Lemma errors_foldl_collect_origin c fs k e :
  errors (foldl collect_field c fs) !! k = Some e →
  errors c !! k = Some e
  ∨ (e = MissingSerializedName
     ∧ ∃ f, f ∈ fs ∧ visible f = true ∧ jsonMatch f = None ∧ varName f = k).
Proof.
  revert c. induction fs as [|f fs IH]; intros c; [by left|]. simpl.
  intros [He | (-> & g & Hg & ?)]%IH.
  - apply errors_collect_field_origin in He as [?|(-> & ? & ? & ?)]; [by left|].
    right. split; [done|]. exists f. split; [apply list_elem_of_here | done].
  - right. split; [done|]. exists g. split; [by apply list_elem_of_further | done].
Qed.

Lemma errors_init_origin isAsync c k e :
  errors (init isAsync c) !! k = Some e →
  e = MissingSerializedName
  ∧ ∃ f, f ∈ s c ∧ visible f = true ∧ jsonMatch f = None ∧ varName f = k.
Proof.
  unfold init, collect_fields.
  replace (s (if isAsync then _ else set_errors ∅ (set_fields ∅ c)))
    with (s c) by (by destruct isAsync).
  intros [He|?]%errors_foldl_collect_origin; [|done].
  by destruct isAsync.
Qed.

(** The errors the loop over the parameters writes. *)
Lemma outcome_origin p field before e :
  outcome p field before = Some e →
  before = Some e ∨ (e ≠ MissingSerializedName ∧ e ≠ ExtraField).
Proof.
  unfold outcome. destruct (Bool.eqb _ _); [intros [= <-]; by right|].
  unfold type_finding, doc_finding.
  destruct (accepts (Type_ p)) as [ok|]; [|intros [= <-]; by right].
  destruct (ok _); [|intros [= <-]; by right].
  repeat case_decide; try (intros [= <-]; by right). by left.
Qed.

Lemma errors_check_param_origin c p k e :
  errors (check_param c p) !! k = Some e →
  errors c !! k = Some e
  ∨ (k = Name p ∧ e ≠ MissingSerializedName ∧ e ≠ ExtraField).
Proof.
  destruct (decide (k = Name p)) as [->|Hne].
  - destruct (fields c !! Name p) as [field|] eqn:E.
    + rewrite (errors_check_param_matched c p field E).
      intros [?|[? ?]]%outcome_origin; [by left | by right].
    + rewrite (errors_check_param_absent c p E). simpl.
      rewrite lookup_insert_eq. intros [= <-]. by right.
  - rewrite errors_check_param_ne by done. by left.
Qed.

Lemma errors_check_params_origin c ps k e :
  errors (check_params c ps) !! k = Some e →
  errors c !! k = Some e
  ∨ (k ∈ map Name ps ∧ e ≠ MissingSerializedName ∧ e ≠ ExtraField).
Proof.
  revert c. induction ps as [|p ps IH]; intros c; [by left|].
  rewrite check_params_cons.
  intros [He | (? & ? & ?)]%IH.
  - apply errors_check_param_origin in He as [?|(-> & ? & ?)]; [by left|].
    right. split; [apply list_elem_of_here | done].
  - right. split; [by apply list_elem_of_further | done].
Qed.

(** X7: every error of a run is accounted for. A missing json annotation
    is reported under the Go name of an exported field that has none; an
    extra field under a key of the mapping that no parameter bears; every
    other error under the name of a parameter. *)
Theorem X7_errors_are_accounted_for `{MapRange} isAsync params c k e :
  errors (run isAsync params c) !! k = Some e →
  match e with
  | MissingSerializedName =>
      ∃ f, f ∈ s c ∧ visible f = true ∧ jsonMatch f = None ∧ varName f = k
  | ExtraField => is_Some (fields (init isAsync c) !! k) ∧ k ∉ map Name params
  | _ => k ∈ map Name params
  end.
Proof.
  rewrite errors_run.
  assert (errors (check_params (init isAsync c) params) !! k = Some e →
          match e with
          | MissingSerializedName =>
              ∃ f, f ∈ s c ∧ visible f = true ∧ jsonMatch f = None ∧ varName f = k
          | ExtraField => False
          | _ => k ∈ map Name params
          end) as Hparams.
  { intros [He | (? & ? & ?)]%errors_check_params_origin.
    - by apply errors_init_origin in He as [-> ?].
    - by destruct e. }
  destruct (fields (init isAsync c) !! k) as [field|] eqn:E.
  - case_decide as Hk.
    + intros He. specialize (Hparams He). by destruct e.
    + intros [= <-]. eauto.
  - intros He. specialize (Hparams He). by destruct e.
Qed.

Lemma X7_witness :
  "zone"%string ∈ map Name [Sample.zone_param].
Proof.
  exact (X7_errors_are_accounted_for (H := range_sorted) false [Sample.zone_param]
           (Sample.command_of "ListZones" [Sample.zone_undocumented])
           "zone"%string (DocumentationMissing "Zone name") eq_refl).
Defined.

Lemma errors_collect_field_keeps c f k :
  errors c !! k = Some MissingSerializedName →
  errors (collect_field c f) !! k = Some MissingSerializedName.
Proof.
  intros Hk. destruct (visible f) eqn:Hv.
  - rewrite collect_field_visible by done.
    destruct (jsonMatch f) as [[jname jomit]|]; [done|]. simpl.
    destruct (decide (varName f = k)) as [->|Hne].
    + apply lookup_insert_eq.
    + by rewrite lookup_insert_ne.
  - by rewrite collect_field_hidden.
Qed.

Lemma errors_foldl_collect_keeps c fs k :
  errors c !! k = Some MissingSerializedName →
  errors (foldl collect_field c fs) !! k = Some MissingSerializedName.
Proof.
  revert c. induction fs as [|f fs IH]; intros c Hk; [done|].
  simpl. by apply IH, errors_collect_field_keeps.
Qed.

Lemma errors_foldl_collect_untagged c fs f :
  f ∈ fs → visible f = true → jsonMatch f = None →
  errors (foldl collect_field c fs) !! varName f = Some MissingSerializedName.
Proof.
  revert c. induction fs as [|g fs IH]; intros c Hin Hv Hj.
  { by apply elem_of_nil in Hin. }
  simpl. apply elem_of_cons in Hin as [<-|Hin]; [|by apply IH].
  apply errors_foldl_collect_keeps.
  rewrite collect_field_visible, Hj by done. apply lookup_insert_eq.
Qed.

(** X8: an exported field without json annotation is reported under its Go
    name, unless that name is also a parameter name or a json name of the
    struct. *)
Theorem X8_missing_annotation_is_reported `{MapRange} isAsync params c f :
  f ∈ s c → visible f = true → jsonMatch f = None →
  varName f ∉ map Name params →
  fields (init isAsync c) !! varName f = None →
  errors (run isAsync params c) !! varName f = Some MissingSerializedName.
Proof.
  intros Hin Hv Hj Hparams Hfields.
  rewrite errors_run, Hfields, errors_check_params_ne by done.
  unfold init, collect_fields.
  apply errors_foldl_collect_untagged; [|done..].
  by destruct isAsync.
Qed.

Lemma X8_witness :
  errors (run (H := range_sorted) false [Sample.zone_param]
            (Sample.command_of "ListZones" [Sample.untagged_field; Sample.zone_field]))
    !! "Raw"%string
  = Some MissingSerializedName.
Proof.
  apply (X8_missing_annotation_is_reported (H := range_sorted) false
           [Sample.zone_param]
           (Sample.command_of "ListZones" [Sample.untagged_field; Sample.zone_field])
           Sample.untagged_field).
  - apply list_elem_of_here.
  - reflexivity.
  - reflexivity.
  - by_compute.
  - reflexivity.
Defined.

Lemma errors_check_param_local c c' p :
  fields c !! Name p = fields c' !! Name p →
  errors c !! Name p = errors c' !! Name p →
  errors (check_param c p) !! Name p = errors (check_param c' p) !! Name p.
Proof.
  intros Hf He. destruct (fields c !! Name p) as [field|] eqn:E.
  - rewrite (errors_check_param_matched c p field E).
    rewrite (errors_check_param_matched c' p field) by done.
    by rewrite He.
  - rewrite (errors_check_param_absent c p E).
    rewrite (errors_check_param_absent c' p) by done.
    simpl. by rewrite !lookup_insert_eq.
Qed.

(** Two parameters of different names can be processed in either order. *)
Lemma check_param_swap c p q :
  Name p ≠ Name q →
  same_maps (check_param (check_param c p) q) (check_param (check_param c q) p).
Proof.
  intros Hne. split.
  - rewrite !fields_check_param. apply delete_delete.
  - apply map_eq; intros k.
    destruct (decide (k = Name p)) as [->|Hp].
    + rewrite (errors_check_param_ne _ q) by done.
      apply errors_check_param_local.
      * rewrite fields_check_param. by rewrite lookup_delete_ne.
      * by rewrite errors_check_param_ne.
    + rewrite (errors_check_param_ne _ p k) by done.
      destruct (decide (k = Name q)) as [->|Hq].
      * symmetry. apply errors_check_param_local.
        -- rewrite fields_check_param. by rewrite lookup_delete_ne.
        -- by rewrite errors_check_param_ne.
      * by rewrite !errors_check_param_ne.
Qed.

Lemma check_params_permutation c c' ps ps' :
  ps ≡ₚ ps' → NoDup (map Name ps) → same_maps c c' →
  same_maps (check_params c ps) (check_params c' ps').
Proof.
  intros Hperm. revert c c'.
  induction Hperm as [|p ps ps' _ IH|p q ps|ps ps' ps'' Hp1 IH1 Hp2 IH2];
    intros c c' Hnd Hs.
  - done.
  - rewrite !check_params_cons. apply NoDup_cons in Hnd as [_ Hnd].
    by apply IH, same_maps_check_param.
  - rewrite !check_params_cons.
    apply NoDup_cons in Hnd as [Hq _].
    assert (Name q ≠ Name p) as Hne.
    { intros Heq. apply Hq. simpl. rewrite Heq. apply list_elem_of_here. }
    destruct (check_param_swap c q p Hne) as [Hf He].
    destruct (same_maps_check_params
                (check_param (check_param c p) q)
                (check_param (check_param c' p) q) ps) as [Hf' He'].
    { by apply same_maps_check_param, same_maps_check_param. }
    destruct (same_maps_check_params
                (check_param (check_param c q) p)
                (check_param (check_param c p) q) ps) as [Hf'' He''].
    { by split. }
    split; congruence.
  - destruct (IH1 c c Hnd) as [Hf1 He1]; [done|].
    destruct (IH2 c c') as [Hf2 He2]; [|done|].
    + by rewrite <- Hp1.
    + split; congruence.
Qed.

(** X9: when the parameters bear different names, their order in the
    catalogue does not matter: any rearrangement of the list gives the same
    errors and leaves the same fields. *)
Theorem X9_parameter_order_is_irrelevant `{MapRange} isAsync params params' c :
  NoDup (map Name params) → params ≡ₚ params' →
  errors (run isAsync params c) = errors (run isAsync params' c)
  ∧ fields (run isAsync params c) = fields (run isAsync params' c).
Proof.
  intros Hnd Hperm.
  assert (same_maps (run isAsync params c) (run isAsync params' c)) as [? ?];
    [|done].
  unfold run. apply same_maps_extra_fields.
  by apply check_params_permutation.
Qed.

Lemma X9_witness :
  let c := Sample.command_of "ListZones" [Sample.zone_undocumented; Sample.count_long] in
  errors (run (H := range_sorted) false [Sample.zone_param; Sample.count_param] c)
  = errors (run (H := range_sorted) false [Sample.count_param; Sample.zone_param] c).
Proof.
  apply (X9_parameter_order_is_irrelevant (H := range_sorted) false
           [Sample.zone_param; Sample.count_param]
           [Sample.count_param; Sample.zone_param]).
  - by_compute.
  - apply perm_swap.
Defined.

(** X10: for the types string, uuid, date and map the [switch] has an empty
    case: whatever the signature of the field, the type check records
    nothing. *)
Theorem X10_unchecked_types p typename errs :
  Type_ p ∈ ["string"; "uuid"; "date"; "map"]%string →
  check_type p typename errs = errs.
Proof.
  intros Hty. rewrite check_type_record. unfold type_finding.
  repeat (apply elem_of_cons in Hty as [-> | Hty]; [done|]).
  by apply elem_of_nil in Hty.
Qed.

Lemma X10_witness :
  check_type {| Description := ""; Name := "id"; Required := true; Type_ := "uuid" |}
    "map[string]int" ∅ = ∅.
Proof.
  apply X10_unchecked_types. apply list_elem_of_further, list_elem_of_here.
Defined.

Lemma is_slice_append elem : is_slice (String.append "[]" elem) = true.
Proof. unfold is_slice. rewrite !append_cons, append_nil. simpl. by destruct elem. Qed.

(** X11: the signatures the [switch] accepts for the checked types, and the
    name it reports as expected otherwise: integer wants int, long wants
    int64, boolean wants bool or *bool (reported as bool), tzdate wants
    string, list and set want a signature that starts with [] (reported as
    []string and as array); a slice of any element type passes as list and
    as set. *)
Theorem X11_checked_types p typename errs :
  let mismatch expected := <[Name p := TypeMismatch expected typename]> errs in
  (Type_ p = "integer"%string →
     check_type p typename errs
       = if String.eqb typename "int" then errs else mismatch "int"%string)
  ∧ (Type_ p = "long"%string →
     check_type p typename errs
       = if String.eqb typename "int64" then errs else mismatch "int64"%string)
  ∧ (Type_ p = "boolean"%string →
     check_type p typename errs
       = if String.eqb typename "bool" || String.eqb typename "*bool"
         then errs else mismatch "bool"%string)
  ∧ (Type_ p = "tzdate"%string →
     check_type p typename errs
       = if String.eqb typename "string" then errs else mismatch "string"%string)
  ∧ (Type_ p = "list"%string →
     check_type p typename errs
       = if String.prefix "[]" typename then errs else mismatch "[]string"%string)
  ∧ (Type_ p = "set"%string →
     check_type p typename errs
       = if String.prefix "[]" typename then errs else mismatch "array"%string)
  ∧ (Type_ p = "list"%string ∨ Type_ p = "set"%string →
     ∀ elem, check_type p (String.append "[]" elem) errs = errs).
Proof.
  intros mismatch. repeat split.
  1-6: intros Hty; rewrite check_type_record; unfold type_finding;
    rewrite Hty; simpl; unfold is_slice;
    by repeat match goal with |- context [if ?b then _ else _] => destruct b end.
  intros Hty elem. rewrite check_type_record. unfold type_finding.
  destruct Hty as [-> | ->]; simpl; by rewrite is_slice_append.
Qed.

Lemma X11_witness :
  check_type {| Description := ""; Name := "ids"; Required := true; Type_ := "list" |}
    "[]int64" ∅ = ∅
  ∧ check_type {| Description := ""; Name := "on"; Required := true; Type_ := "boolean" |}
      "*bool" ∅ = ∅.
Proof.
  split.
  - exact (proj2 (proj2 (proj2 (proj2 (proj2 (proj2
             (X11_checked_types
                {| Description := ""; Name := "ids"; Required := true;
                   Type_ := "list" |} "[]int64" ∅))))))
             (or_introl eq_refl) "int64"%string).
  - exact (proj1 (proj2 (proj2
             (X11_checked_types
                {| Description := ""; Name := "on"; Required := true;
                   Type_ := "boolean" |} "*bool" ∅))) eq_refl).
Defined.

(** ** A run without errors *)

Lemma record_empty k o errs : record k o errs = ∅ ↔ o = None ∧ errs = ∅.
Proof.
  destruct o as [e|]; simpl.
  - split; [|by intros [? ?]]. intros He. by apply insert_non_empty in He.
  - split; [done | by intros [_ ?]].
Qed.

Lemma doc_finding_None p field : doc_finding p field = None ↔ Doc field = Description p.
Proof. unfold doc_finding. by repeat case_decide. Qed.

Lemma errors_check_param_empty c p :
  errors (check_param c p) = ∅ ↔
  errors c = ∅ ∧ ∃ field, fields c !! Name p = Some field ∧ agrees p field.
Proof.
  unfold check_param, agrees.
  destruct (fields c !! Name p) as [field|] eqn:E; simpl.
  - destruct (Bool.eqb_spec (Required p) (OmitEmpty field)) as [Heq|Hne]; simpl.
    + split.
      * intros He. by apply insert_non_empty in He.
      * intros (_ & field' & [= <-] & _ & ? & _). done.
    + rewrite check_type_record, check_doc_record, !record_empty, doc_finding_None.
      split.
      * intros (? & ? & ?). split; [done|]. by exists field.
      * intros (? & field' & [= <-] & ? & ? & ?). done.
  - split.
    + intros He. by apply insert_non_empty in He.
    + by intros (_ & field' & ? & _).
Qed.

Lemma errors_check_params_empty c ps :
  errors (check_params c ps) = ∅ ↔
  errors c = ∅ ∧ NoDup (map Name ps)
  ∧ ∀ p, p ∈ ps → ∃ field, fields c !! Name p = Some field ∧ agrees p field.
Proof.
  revert c. induction ps as [|p ps IH]; intros c.
  - split; [|by intros [? _]]. intros He. split; [done|].
    split; [constructor|]. intros p Hp. by apply elem_of_nil in Hp.
  - rewrite check_params_cons, IH, errors_check_param_empty.
    setoid_rewrite fields_check_param. split.
    + intros ((He & field & Hf & Hag) & Hnd & Hall). split; [done|]. split.
      * simpl. apply NoDup_cons. split; [|done].
        intros (q & Hq & Hin)%list_elem_of_fmap.
        destruct (Hall q Hin) as (fq & Hfq & _).
        rewrite <- Hq, lookup_delete_eq in Hfq. done.
      * intros q [->|Hin]%elem_of_cons; [by exists field|].
        destruct (Hall q Hin) as (fq & Hfq & Hq).
        apply lookup_delete_Some in Hfq as [_ Hfq]. by exists fq.
    + intros (He & Hnd & Hall). simpl in Hnd. apply NoDup_cons in Hnd as [Hp Hnd].
      split; [|split; [done|]].
      * split; [done|]. apply Hall, list_elem_of_here.
      * intros q Hin. destruct (Hall q) as (fq & Hfq & Hq);
          [by apply list_elem_of_further|].
        exists fq. split; [|done]. apply lookup_delete_Some. split; [|done].
        intros Heq. apply Hp. rewrite Heq. apply list_elem_of_fmap. by exists q.
Qed.

Lemma errors_extra_fields_empty `{MapRange} c :
  errors (extra_fields c) = ∅ ↔ errors c = ∅ ∧ fields c = ∅.
Proof.
  split.
  - intros He.
    assert (∀ k, fields c !! k = None ∧ errors c !! k = None) as Hk.
    { intros k. pose proof (errors_extra_fields c k) as Hl.
      rewrite He, lookup_empty in Hl. by destruct (fields c !! k). }
    split; apply map_eq; intros k; rewrite lookup_empty; apply Hk.
  - intros [He Hf]. apply map_eq; intros k.
    by rewrite errors_extra_fields, Hf, He, !lookup_empty.
Qed.

Lemma errors_init_empty isAsync c :
  errors (init isAsync c) = ∅ ↔
  ∀ f, f ∈ s c → visible f = true → jsonMatch f ≠ None.
Proof.
  split.
  - intros He f Hin Hv Hj.
    assert (errors (init isAsync c) !! varName f = Some MissingSerializedName)
      as Hl; [|by rewrite He in Hl].
    unfold init, collect_fields. apply errors_foldl_collect_untagged; [|done..].
    by destruct isAsync.
  - intros Hall. apply map_eq; intros k. rewrite lookup_empty.
    destruct (errors (init isAsync c) !! k) as [e|] eqn:E; [|done].
    apply errors_init_origin in E as (_ & f & Hin & Hv & Hj & _).
    by destruct (Hall f Hin Hv).
Qed.

(** X12: a run ends without any error exactly when every exported field has
    a json annotation, the parameters bear different names, every
    parameter has a field of its name that agrees with it on
    documentation, optionality and type, and every json name of the struct
    is a parameter name. *)
Theorem X12_no_error_exactly_when_struct_and_operation_agree `{MapRange}
    isAsync params c :
  errors (run isAsync params c) = ∅ ↔
  (∀ f, f ∈ s c → visible f = true → jsonMatch f ≠ None)
  ∧ NoDup (map Name params)
  ∧ (∀ p, p ∈ params →
       ∃ field, fields (init isAsync c) !! Name p = Some field ∧ agrees p field)
  ∧ (∀ k, is_Some (fields (init isAsync c) !! k) → k ∈ map Name params).
Proof.
  unfold run. rewrite errors_extra_fields_empty, errors_check_params_empty.
  rewrite errors_init_empty.
  assert (fields (check_params (init isAsync c) params) = ∅ ↔
          ∀ k, is_Some (fields (init isAsync c) !! k) → k ∈ map Name params)
    as ->; [|tauto].
  split.
  - intros Hf k Hk.
    pose proof (fields_check_params (init isAsync c) params k) as Hl.
    rewrite Hf, lookup_empty in Hl. case_decide; [done|].
    rewrite <- Hl in Hk. by destruct Hk.
  - intros Hall. apply map_eq; intros k.
    rewrite fields_check_params, lookup_empty. case_decide as Hk; [done|].
    destruct (fields (init isAsync c) !! k) eqn:E; [|done].
    destruct Hk. apply Hall. eauto.
Qed.

Lemma X12_witness :
  errors (run (H := range_sorted) false [Sample.zone_param]
            (Sample.command_of "ListZones" [Sample.zone_field])) = ∅.
Proof.
  apply (X12_no_error_exactly_when_struct_and_operation_agree (H := range_sorted)).
  split; [|split; [|split]].
  - intros f Hf _. apply list_elem_of_singleton in Hf as ->. discriminate.
  - by_compute.
  - intros p Hp. apply list_elem_of_singleton in Hp as ->.
    eexists. split; [reflexivity|]. split; [reflexivity|].
    split; [simpl; discriminate | reflexivity].
  - intros k [field Hk]. destruct (decide (k = "zone"%string)) as [->|Hne].
    + apply list_elem_of_here.
    + exfalso. revert Hk. unfold init, collect_fields. simpl.
      rewrite lookup_insert_ne by done. by rewrite lookup_empty.
Defined.

(** ** The registry *)

Section RegistryFacts.

Context `{MapRange}.
Variable ToLower : string → string.

Lemma add_def_registered m pos obj typ :
  objExported obj = true → objStruct obj = Some typ →
  add_def ToLower m (pos, Some obj)
    = <[ToLower (objName obj) := command_at pos obj typ]> m.
Proof. intros He Hs. unfold add_def. simpl. by rewrite He, Hs. Qed.

Lemma add_def_skipped m d :
  (∀ obj, d.2 = Some obj → ¬ registered obj) → add_def ToLower m d = m.
Proof.
  intros Hd. unfold add_def. destruct d.2 as [obj|]; [|done].
  destruct (objExported obj) eqn:He; [|done]. simpl.
  destruct (objStruct obj) as [typ|] eqn:Hs; [|done].
  destruct (Hd obj eq_refl). split; [done | by rewrite Hs].
Qed.

Lemma foldl_add_def_lookup m defs k c :
  foldl (add_def ToLower) m defs !! k = Some c →
  m !! k = Some c
  ∨ ∃ pos obj typ, (pos, Some obj) ∈ defs ∧ objExported obj = true
      ∧ objStruct obj = Some typ ∧ k = ToLower (objName obj)
      ∧ c = command_at pos obj typ.
Proof.
  revert m. induction defs as [|[pos o] defs IH]; intros m; [by left|].
  simpl. intros [Hm | (pos' & obj & typ & Hin & ?)]%IH.
  - unfold add_def in Hm. simpl in Hm.
    destruct o as [obj|]; [|by left].
    destruct (objExported obj) eqn:He; [|by left]. simpl in Hm.
    destruct (objStruct obj) as [typ|] eqn:Hs; [|by left].
    destruct (decide (ToLower (objName obj) = k)) as [<-|Hne].
    + rewrite lookup_insert_eq in Hm. injection Hm as <-.
      right. exists pos, obj, typ. split; [apply list_elem_of_here | done].
    + rewrite lookup_insert_ne in Hm by done. by left.
  - right. exists pos', obj, typ. split; [by apply list_elem_of_further | done].
Qed.

Lemma foldl_add_def_other m defs k :
  (∀ d obj, d ∈ defs → d.2 = Some obj → registered obj →
     ToLower (objName obj) ≠ k) →
  foldl (add_def ToLower) m defs !! k = m !! k.
Proof.
  revert m. induction defs as [|d defs IH]; intros m Hk; [done|].
  simpl. rewrite IH.
  - unfold add_def. destruct d.2 as [obj|] eqn:Hd; [|done].
    destruct (objExported obj) eqn:He; [|done]. simpl.
    destruct (objStruct obj) as [typ|] eqn:Hs; [|done].
    apply lookup_insert_ne. apply (Hk d obj); [apply list_elem_of_here | done |].
    split; [done | by rewrite Hs].
  - intros d' obj Hin. by apply Hk, list_elem_of_further.
Qed.

End RegistryFacts.

(** X13: the registry holds nothing but the exported struct definitions:
    an entry is the command made of such a definition, under the
    lower-cased name of the struct, with its position, no async marker and
    empty maps. *)
Theorem X13_registry_holds_exported_structs (ToLower : string → string) defs k c :
  build_commands ToLower defs !! k = Some c →
  ∃ pos obj,
    (pos, Some obj) ∈ defs ∧ objExported obj = true
    ∧ objStruct obj = Some (s c)
    ∧ k = ToLower (objName obj) ∧ name c = objName obj ∧ position c = pos
    ∧ sync c = ""%string ∧ fields c = ∅ ∧ errors c = ∅.
Proof.
  unfold build_commands.
  intros [Hm | (pos & obj & typ & ? & ? & ? & ? & ->)]%foldl_add_def_lookup.
  - by rewrite lookup_empty in Hm.
  - by exists pos, obj.
Qed.

Lemma X13_witness :
  ∃ pos obj, (pos, Some obj) ∈ Sample.defs ∧ objName obj = "Orphan"%string.
Proof.
  destruct (X13_registry_holds_exported_structs Sample.to_lower Sample.defs
              "orphan"%string
              (command_at 30 {| objName := "Orphan"; objExported := true;
                                objStruct := Some [Sample.zone_field] |}
                 [Sample.zone_field]))
    as (pos & obj & Hin & _ & _ & _ & Hname & _); [by vm_compute|].
  by exists pos, obj.
Defined.

(** X14: every exported struct definition is registered under its
    lower-cased name, and when several definitions share that key the one
    visited last is the one the registry keeps. *)
Theorem X14_last_definition_of_a_key_wins (ToLower : string → string)
    pre pos obj typ post :
  objExported obj = true → objStruct obj = Some typ →
  (∀ d obj', d ∈ post → d.2 = Some obj' → registered obj' →
     ToLower (objName obj') ≠ ToLower (objName obj)) →
  build_commands ToLower (pre ++ (pos, Some obj) :: post)
    !! ToLower (objName obj)
  = Some (command_at pos obj typ).
Proof.
  intros He Hs Hpost. unfold build_commands.
  rewrite foldl_app. simpl.
  rewrite foldl_add_def_other by done.
  rewrite (add_def_registered ToLower _ pos obj typ) by done.
  apply lookup_insert_eq.
Qed.

Lemma X14_witness :
  let first := {| objName := "ListZones"; objExported := true;
                  objStruct := Some [Sample.zone_field] |} in
  let second := {| objName := "listzones"; objExported := true;
                   objStruct := Some [Sample.count_field] |} in
  build_commands Sample.to_lower [(1, Some first); (2, Some second); (3, None)]
    !! "listzones"%string
  = Some (command_at 2 second [Sample.count_field]).
Proof.
  intros first second.
  apply (X14_last_definition_of_a_key_wins Sample.to_lower
           [(1, Some first)] 2 second [Sample.count_field] [(3, None)]);
    [reflexivity..|].
  intros d obj' Hd Hobj. apply list_elem_of_singleton in Hd as ->. discriminate.
Defined.

(** ** The loop over the catalogue *)

Section LoopFacts.

Context `{MapRange}.
Variable ToLower : string → string.

Lemma api_step_commands rtype st a k :
  commands (api_step ToLower rtype st a) !! k =
    if decide (k = target ToLower rtype st a)
    then Matcher.run (IsAsync a) (checked ToLower rtype st a) <$> commands st !! k
    else commands st !! k.
Proof.
  unfold api_step, target, checked, redirected.
  set (r := String.eqb _ _ && negb _).
  set (l := if r then ToLower rtype else ToLower (apiName a)).
  destruct (commands st !! l) as [c|] eqn:E; simpl.
  - case_decide as Hk.
    + subst k. by rewrite lookup_insert_eq, E.
    + by rewrite lookup_insert_ne.
  - case_decide as Hk; [|done]. subst k. by rewrite E.
Qed.

Lemma api_step_cmd rtype st a :
  cmd (api_step ToLower rtype st a) =
    if redirected ToLower rtype st a then ToLower rtype else cmd st.
Proof.
  unfold api_step, redirected.
  set (r := String.eqb _ _ && negb _).
  by destruct r, (commands st !! _).
Qed.

Lemma api_loop_cons rtype st a apis :
  api_loop ToLower rtype st (a :: apis)
    = api_loop ToLower rtype (api_step ToLower rtype st a) apis.
Proof. reflexivity. Qed.

Lemma api_loop_app rtype st apis apis' :
  api_loop ToLower rtype st (apis ++ apis')
    = api_loop ToLower rtype (api_loop ToLower rtype st apis) apis'.
Proof. apply foldl_app. Qed.

Lemma same_struct_refl o : same_struct o o.
Proof. by destruct o. Qed.

Lemma same_struct_trans o1 o2 o3 :
  same_struct o1 o2 → same_struct o2 o3 → same_struct o1 o3.
Proof.
  destruct o1, o2, o3; simpl; try done.
  intros (-> & -> & ->) (-> & -> & ->). done.
Qed.

Lemma same_struct_run isAsync params c :
  same_struct (Some c) (Some (Matcher.run isAsync params c)).
Proof.
  pose proof (decl_run isAsync params c) as Hd.
  unfold decl in Hd. injection Hd as Hn _ Hs Hp. done.
Qed.

Lemma api_step_same_struct rtype st a k :
  same_struct (commands st !! k) (commands (api_step ToLower rtype st a) !! k).
Proof.
  rewrite api_step_commands. case_decide; [|apply same_struct_refl].
  destruct (commands st !! k) as [c|]; [|done]. apply same_struct_run.
Qed.

Lemma api_loop_same_struct rtype st apis k :
  same_struct (commands st !! k) (commands (api_loop ToLower rtype st apis) !! k).
Proof.
  revert st. induction apis as [|a apis IH]; intros st; [apply same_struct_refl|].
  rewrite api_loop_cons.
  eapply same_struct_trans; [apply api_step_same_struct | apply IH].
Qed.

Lemma api_step_untouched rtype st a k :
  ToLower (apiName a) ≠ k → rtype = ""%string ∨ ToLower rtype ≠ k →
  commands (api_step ToLower rtype st a) !! k = commands st !! k.
Proof.
  intros Ha Hr. rewrite api_step_commands. rewrite decide_False; [done|].
  unfold target, redirected. intros ->.
  destruct Hr as [-> | Hr].
  - by rewrite andb_false_r in Ha.
  - by destruct (String.eqb _ _ && _).
Qed.

Lemma api_loop_untouched rtype st apis k :
  Forall (λ a, ToLower (apiName a) ≠ k) apis →
  rtype = ""%string ∨ ToLower rtype ≠ k →
  commands (api_loop ToLower rtype st apis) !! k = commands st !! k.
Proof.
  intros Hall Hr. revert st.
  induction Hall as [|a apis Ha _ IH]; intros st; [done|].
  rewrite api_loop_cons, IH. by apply api_step_untouched.
Qed.

Lemma same_maps_run isAsync params c c' :
  s c = s c' →
  same_maps (Matcher.run isAsync params c) (Matcher.run isAsync params c').
Proof.
  intros Hs. unfold Matcher.run.
  by apply same_maps_extra_fields, same_maps_check_params, same_maps_init.
Qed.

(** The loop when the selection stays as it is. *)
Lemma api_loop_cmd_kept rtype st apis :
  Forall (λ a, ToLower (apiName a) ≠ ToLower (cmd st)) apis →
  cmd (api_loop ToLower rtype st apis) = cmd st.
Proof.
  intros Hall. revert st Hall.
  induction apis as [|a apis IH]; intros st Hall; [done|].
  apply Forall_cons in Hall as [Ha Hall].
  assert (cmd (api_step ToLower rtype st a) = cmd st) as Hc.
  { rewrite api_step_cmd. unfold redirected.
    by destruct (String.eqb_spec (ToLower (cmd st)) (ToLower (apiName a))). }
  rewrite api_loop_cons, IH; [done|]. by rewrite Hc.
Qed.

(** Operations that neither bear the selection nor a given key. *)
Lemma api_loop_plain rtype st apis k :
  Forall (λ b, ToLower (apiName b) ≠ ToLower (cmd st)
               ∧ ToLower (apiName b) ≠ k) apis →
  commands (api_loop ToLower rtype st apis) !! k = commands st !! k.
Proof.
  intros Hall. revert st Hall.
  induction apis as [|b apis IH]; intros st Hall; [done|].
  apply Forall_cons in Hall as [[Hsel Hk] Hall].
  assert (redirected ToLower rtype st b = false) as Hred.
  { unfold redirected.
    by destruct (String.eqb_spec (ToLower (cmd st)) (ToLower (apiName b))). }
  rewrite api_loop_cons, IH.
  - rewrite api_step_commands. unfold target. rewrite Hred.
    by rewrite decide_False.
  - by rewrite api_step_cmd, Hred.
Qed.

End LoopFacts.

(** X15: the loop over the catalogue neither adds nor removes a command,
    and leaves the name, the struct and the position of every command as
    they are. *)
Theorem X15_loop_keeps_the_registry `{MapRange} (ToLower : string → string)
    rtype st apis :
  dom (commands (api_loop ToLower rtype st apis)) = dom (commands st)
  ∧ ∀ k, same_struct (commands st !! k)
           (commands (api_loop ToLower rtype st apis) !! k).
Proof.
  split; [|intros k; apply api_loop_same_struct].
  apply set_eq. intros k. rewrite !elem_of_dom.
  pose proof (api_loop_same_struct ToLower rtype st apis k) as Hk.
  destruct (commands st !! k), (commands (api_loop ToLower rtype st apis) !! k);
    simpl in Hk; try done.
  all: split; intros [? ?]; (done || eauto).
Qed.

(** X16: a command is left exactly as it is by the loop when no operation
    of the catalogue bears its key and [-type] does not name it. *)
Theorem X16_unnamed_command_untouched `{MapRange} (ToLower : string → string)
    rtype st apis k :
  Forall (λ a, ToLower (apiName a) ≠ k) apis →
  rtype = ""%string ∨ ToLower rtype ≠ k →
  commands (api_loop ToLower rtype st apis) !! k = commands st !! k.
Proof.
  intros Hall Hr. revert st.
  induction Hall as [|a apis Ha _ IH]; intros st; [done|].
  rewrite api_loop_cons, IH. rewrite api_step_commands.
  rewrite decide_False; [done|].
  unfold target, redirected. intros ->.
  destruct Hr as [-> | Hr].
  - by rewrite andb_false_r in Ha.
  - by destruct (String.eqb _ _ && _).
Qed.

Lemma X16_witness :
  commands (api_loop (H := range_sorted) Sample.to_lower ""
              {| cmd := ""; commands := build_commands Sample.to_lower Sample.defs;
                 notices := [] |}
              [Sample.list_zones; Sample.deploy]) !! "orphan"%string
  = build_commands Sample.to_lower Sample.defs !! "orphan"%string.
Proof.
  apply (X16_unnamed_command_untouched (H := range_sorted) Sample.to_lower).
  - repeat constructor; vm_compute; discriminate.
  - by left.
Defined.

(** X17: without [-type], the errors of a command are those of the last
    operation of the catalogue that bears its key: every match starts from
    fresh maps, so nothing is carried over from an earlier operation. *)
Theorem X17_last_operation_of_a_key_decides `{MapRange}
    (ToLower : string → string) st pre a post k c :
  commands st !! k = Some c →
  ToLower (apiName a) = k →
  Forall (λ b, ToLower (apiName b) ≠ k) post →
  ∃ c', commands (api_loop ToLower "" st (pre ++ a :: post)) !! k = Some c'
        ∧ errors c' = errors (Matcher.run (IsAsync a) (Params a) c)
        ∧ fields c' = fields (Matcher.run (IsAsync a) (Params a) c).
Proof.
  intros Hc Ha Hpost.
  rewrite api_loop_app, api_loop_cons.
  rewrite api_loop_untouched by (done || by left).
  set (st1 := api_loop ToLower "" st pre).
  pose proof (api_loop_same_struct ToLower "" st pre k) as Hs.
  fold st1 in Hs. rewrite Hc in Hs.
  rewrite api_step_commands.
  assert (target ToLower "" st1 a = k) as Ht.
  { unfold target, redirected. by rewrite andb_false_r. }
  assert (checked ToLower "" st1 a = Params a) as Hp.
  { unfold checked, redirected. by rewrite andb_false_r. }
  rewrite Ht, Hp, decide_True by done.
  destruct (commands st1 !! k) as [c1|]; [|done].
  destruct Hs as (_ & Hs & _).
  exists (Matcher.run (IsAsync a) (Params a) c1). split; [done|].
  destruct (same_maps_run (IsAsync a) (Params a) c1 c Hs) as [? ?]. done.
Qed.

Lemma X17_witness :
  let again := {| apiName := "LISTZONES"; IsAsync := false;
                  Params := [Sample.zone_param]; Response := [] |} in
  ∃ c', commands (api_loop (H := range_sorted) Sample.to_lower ""
                    {| cmd := "";
                       commands := build_commands Sample.to_lower Sample.defs;
                       notices := [] |}
                    [Sample.list_zones; again; Sample.deploy]) !! "listzones"%string
        = Some c'
      ∧ errors c' = {[ "zone"%string := DocumentationMissing "Zone name";
                       "count"%string := ExtraField;
                       "extra"%string := ExtraField ]}.
Proof.
  intros again.
  destruct (X17_last_operation_of_a_key_decides (H := range_sorted)
              Sample.to_lower
              {| cmd := ""; commands := build_commands Sample.to_lower Sample.defs;
                 notices := [] |}
              [Sample.list_zones] again [Sample.deploy] "listzones"%string
              (command_at 10 {| objName := "ListZones"; objExported := true;
                                objStruct := Some [Sample.zone_undocumented;
                                                   Sample.count_long;
                                                   Sample.extra_field] |}
                 [Sample.zone_undocumented; Sample.count_long; Sample.extra_field]))
    as (c' & Hc' & He & _).
  - by vm_compute.
  - by vm_compute.
  - repeat constructor; vm_compute; discriminate.
  - exists c'. split; [exact Hc'|]. rewrite He. by vm_compute.
Defined.

(** X18: the async marker is never taken back. Without [-type], a command
    that had its marker keeps it, and one that had none ends with the
    marker exactly when some operation of its key is asynchronous, be it
    followed by a synchronous one of the same key. *)
Theorem X18_async_marker_is_sticky `{MapRange} (ToLower : string → string)
    st apis k c :
  commands st !! k = Some c →
  ∃ c', commands (api_loop ToLower "" st apis) !! k = Some c'
        ∧ sync c' =
            if existsb (λ a, bool_decide (ToLower (apiName a) = k) && IsAsync a) apis
            then " (A)"%string else sync c.
Proof.
  revert st c. induction apis as [|a apis IH]; intros st c Hc.
  { exists c. by split. }
  rewrite api_loop_cons. simpl existsb.
  assert (target ToLower "" st a = ToLower (apiName a)) as Ht.
  { unfold target, redirected. by rewrite andb_false_r. }
  pose proof (api_step_commands ToLower "" st a k) as Hstep. rewrite Ht in Hstep.
  case_bool_decide as Hk.
  - rewrite decide_True, Hc in Hstep by done. simpl in Hstep.
    destruct (IH _ _ Hstep) as (c' & Hc' & Hs). exists c'. split; [done|].
    rewrite Hs.
    pose proof (decl_run (IsAsync a) (checked ToLower "" st a) c) as Hd.
    unfold decl in Hd. injection Hd as _ Hsy _ _.
    destruct (existsb _ apis); [by rewrite orb_true_r|].
    rewrite orb_false_r. simpl. rewrite Hsy. by destruct (IsAsync a).
  - rewrite decide_False, Hc in Hstep by done.
    destruct (IH _ _ Hstep) as (c' & Hc' & Hs). exists c'. by split.
Qed.

Lemma X18_witness :
  let sync_again := {| apiName := "DeployVirtualMachine"; IsAsync := false;
                       Params := []; Response := [] |} in
  let registry : gmap string command :=
    {[ "deployvirtualmachine"%string := Sample.command_of "DeployVirtualMachine" [] ]} in
  ∃ c', commands (api_loop (H := range_sorted) Sample.to_lower ""
                    {| cmd := ""; commands := registry; notices := [] |}
                    [Sample.deploy; sync_again]) !! "deployvirtualmachine"%string
        = Some c'
      ∧ sync c' = " (A)"%string.
Proof.
  intros sync_again registry.
  exact (X18_async_marker_is_sticky (H := range_sorted) Sample.to_lower
           {| cmd := ""; commands := registry; notices := [] |}
           [Sample.deploy; sync_again] "deployvirtualmachine"%string
           (Sample.command_of "DeployVirtualMachine" []) eq_refl).
Defined.

(** X19: with [-type], the first operation named like [-cmd] moves the
    selection to the lower-cased type and checks the struct of that type
    against the response list of the operation; when no later operation
    bears the key of the type, these are the errors of that struct. *)
Theorem X19_type_redirects_to_the_response `{MapRange} (ToLower : string → string)
    rtype st pre a post c :
  rtype ≠ ""%string →
  Forall (λ b, ToLower (apiName b) ≠ ToLower (cmd st)) pre →
  ToLower (apiName a) = ToLower (cmd st) →
  commands st !! ToLower rtype = Some c →
  cmd (api_loop ToLower rtype st (pre ++ a :: post)) = ToLower rtype
  ∧ (Forall (λ b, ToLower (apiName b) ≠ ToLower rtype
                  ∧ ToLower (apiName b) ≠ ToLower (ToLower rtype)) post →
     ∃ c', commands (api_loop ToLower rtype st (pre ++ a :: post)) !! ToLower rtype
             = Some c'
           ∧ errors c' = errors (Matcher.run (IsAsync a) (Response a) c)).
Proof.
  intros Hr Hpre Ha Hc.
  rewrite api_loop_app, api_loop_cons.
  set (st1 := api_loop ToLower rtype st pre).
  assert (cmd st1 = cmd st) as Hcmd1 by (by apply api_loop_cmd_kept).
  assert (redirected ToLower rtype st1 a = true) as Hred.
  { unfold redirected. rewrite Hcmd1, Ha, String.eqb_refl. simpl.
    by destruct (String.eqb_spec rtype ""). }
  set (st2 := api_step ToLower rtype st1 a).
  assert (cmd st2 = ToLower rtype) as Hcmd2.
  { unfold st2. by rewrite api_step_cmd, Hred. }
  split.
  - destruct (api_loop_cmd ToLower rtype st2 post) as [-> | ->]; done.
  - intros Hpost.
    rewrite (api_loop_plain ToLower rtype st2 post (ToLower rtype)).
    2:{ rewrite Hcmd2. eapply Forall_impl; [exact Hpost|]. by intros b [? ?]. }
    unfold st2. rewrite api_step_commands.
    unfold target, checked. rewrite Hred, decide_True by done.
    pose proof (api_loop_same_struct ToLower rtype st pre (ToLower rtype)) as Hs.
    fold st1 in Hs. rewrite Hc in Hs.
    destruct (commands st1 !! ToLower rtype) as [c1|]; [|done].
    destruct Hs as (_ & Hs & _).
    exists (Matcher.run (IsAsync a) (Response a) c1). split; [done|].
    by destruct (same_maps_run (IsAsync a) (Response a) c1 c Hs).
Qed.

Lemma X19_witness :
  ∃ c', commands (api_loop (H := range_sorted) Sample.to_lower "Orphan"
                    {| cmd := "listZones";
                       commands := build_commands Sample.to_lower Sample.defs;
                       notices := [] |}
                    [Sample.deploy; Sample.list_zones]) !! "orphan"%string
        = Some c'
      ∧ errors c' = {[ "size"%string := MissingField "size" "weirdtype" "" "the size";
                       "zone"%string := ExtraField ]}.
Proof.
  destruct (X19_type_redirects_to_the_response (H := range_sorted) Sample.to_lower
              "Orphan"
              {| cmd := "listZones";
                 commands := build_commands Sample.to_lower Sample.defs;
                 notices := [] |}
              [Sample.deploy] Sample.list_zones []
              (command_at 30 {| objName := "Orphan"; objExported := true;
                                objStruct := Some [Sample.zone_field] |}
                 [Sample.zone_field]))
    as [_ Hrun].
  - discriminate.
  - repeat constructor; vm_compute; discriminate.
  - by vm_compute.
  - by vm_compute.
  - destruct (Hrun (List.Forall_nil _)) as (c' & Hc' & He).
    exists c'. split; [exact Hc'|]. rewrite He. by vm_compute.
Defined.

(** ** The summary *)

Section SummaryFacts.

Context `{MapRange}.
Variable ToLower : string → string.

Lemma report_loop_summary_lines cs out :
  report_loop ToLower "" cs out
    = (out ++ map (λ kc, summary_line kc.2)
                (filter (λ kc : string * command, size (errors kc.2) ≠ 0%nat) cs),
       None).
Proof.
  revert out. induction cs as [|[k c] cs IH]; intros out.
  - by rewrite app_nil_r.
  - rewrite filter_cons.
    change (report_loop ToLower "" ((k, c) :: cs) out)
      with (if negb (Z.of_nat (size (errors c)) =? 0)
            then report_loop ToLower "" cs (out ++ [summary_line c])
            else report_loop ToLower "" cs out).
    case_decide as Hs; simpl in Hs.
    + replace (negb (Z.of_nat (size (errors c)) =? 0)) with true
        by (symmetry; apply negb_true_iff, Z.eqb_neq; lia).
      rewrite IH. simpl. by rewrite <- app_assoc.
    + replace (negb (Z.of_nat (size (errors c)) =? 0)) with false
        by (symmetry; apply negb_false_iff, Z.eqb_eq; lia).
      apply IH.
Qed.

Lemma report_summary_lines m :
  report ToLower "" m
    = (map (λ kc, summary_line kc.2)
         (filter (λ kc : string * command, size (errors kc.2) ≠ 0%nat) (range m)),
       0).
Proof. unfold report. by rewrite report_loop_summary_lines. Qed.

Lemma elem_of_summary m ln :
  ln ∈ (report ToLower "" m).1 ↔
  ∃ k c, m !! k = Some c ∧ errors c ≠ ∅ ∧ ln = summary_line c.
Proof.
  rewrite report_summary_lines. simpl. rewrite list_elem_of_fmap. split.
  - intros ([k c] & -> & [Hsize Hin]%list_elem_of_filter). simpl in *.
    exists k, c. split; [by apply elem_of_range|]. split; [|done].
    intros He. by rewrite He, map_size_empty in Hsize.
  - intros (k & c & Hm & He & ->). exists (k, c). split; [done|].
    apply list_elem_of_filter. split; [|by apply elem_of_range].
    simpl. by rewrite map_size_empty_iff.
Qed.

End SummaryFacts.

(** X20: without a selection the report is the summary: one line for each
    command of the registry that has errors, with the number of its errors,
    its position, its name and its async marker; no line for a command
    without errors; and the program returns with code 0. *)
Theorem X20_summary_lists_the_commands_with_errors `{MapRange}
    (ToLower : string → string) (m : gmap string command) :
  report ToLower "" m
    = (map (λ kc, summary_line kc.2)
         (filter (λ kc : string * command, size (errors kc.2) ≠ 0%nat) (range m)),
       0)
  ∧ ∀ ln, ln ∈ (report ToLower "" m).1 ↔
          ∃ k c, m !! k = Some c ∧ errors c ≠ ∅ ∧ ln = summary_line c.
Proof.
  assert (report ToLower "" m
          = (map (λ kc, summary_line kc.2)
               (filter (λ kc : string * command, size (errors kc.2) ≠ 0%nat)
                  (range m)), 0)) as Hrep.
  { unfold report. by rewrite report_loop_summary_lines. }
  split; [done|]. intros ln. rewrite Hrep. simpl.
  rewrite list_elem_of_fmap. split.
  - intros ([k c] & -> & [Hsize Hin]%list_elem_of_filter). simpl in *.
    exists k, c. split; [by apply elem_of_range|]. split; [|done].
    intros He. by rewrite He, map_size_empty in Hsize.
  - intros (k & c & Hm & He & ->). exists (k, c). split; [done|].
    apply list_elem_of_filter. split; [|by apply elem_of_range].
    simpl. by rewrite map_size_empty_iff.
Qed.

(** X21: in summary mode without [-type], a struct that no operation of
    the catalogue names is never listed: every line of the summary is for a
    registered struct whose key is the lower-cased name of some operation,
    and its count is positive. *)
Theorem X21_summary_skips_unnamed_structs `{MapRange} (ToLower : string → string)
    apis defs er pos cname csync :
  SummaryLine er pos cname csync ∈ (main ToLower "" "" apis defs).1 →
  0 < er
  ∧ ∃ a c0, a ∈ apis
      ∧ build_commands ToLower defs !! ToLower (apiName a) = Some c0
      ∧ name c0 = cname ∧ position c0 = pos.
Proof.
  unfold main.
  set (st0 := {| cmd := ""; commands := build_commands ToLower defs; notices := [] |}).
  rewrite (api_loop_no_rtype ToLower st0 apis). simpl.
  intros (k & c & Hc & He & Hline)%elem_of_summary.
  unfold summary_line in Hline. injection Hline as -> -> -> ->.
  split.
  { assert (size (errors c) ≠ 0%nat) by (by rewrite map_size_empty_iff). lia. }
  pose proof (api_loop_same_struct ToLower "" st0 apis k) as Hs.
  rewrite Hc in Hs. simpl in Hs.
  destruct (build_commands ToLower defs !! k) as [c0|] eqn:Hc0; [|done].
  destruct Hs as (Hn & _ & Hp).
  destruct (decide (Exists (λ a, ToLower (apiName a) = k) apis)) as [Hex|Hno].
  - apply Exists_exists in Hex as (a & Ha & <-). by exists a, c0.
  - exfalso. apply He.
    apply not_Exists_Forall in Hno; [|intros a; apply _].
    rewrite (api_loop_untouched ToLower "" st0 apis k) in Hc by (done || by left).
    simpl in Hc. rewrite Hc0 in Hc. injection Hc as <-.
    by destruct (build_commands_fresh ToLower defs k c0 Hc0).
Qed.

Lemma X21_witness :
  ∃ a c0, a ∈ [Sample.list_zones; Sample.deploy]
    ∧ build_commands Sample.to_lower Sample.defs
        !! Sample.to_lower (apiName a) = Some c0
    ∧ name c0 = "ListZones"%string ∧ position c0 = 10.
Proof.
  exact (proj2 (X21_summary_skips_unnamed_structs (H := range_sorted)
                  Sample.to_lower [Sample.list_zones; Sample.deploy] Sample.defs
                  3 10 "ListZones" ""
                  ltac:(vm_compute; apply list_elem_of_here))).
Defined.



(** ** nlb service add *)

Section NLBFacts.

Import NLB.

Lemma uint16_range x : 0 ≤ uint16 x < 65536.
Proof. unfold uint16. apply Z.mod_pos_bound. lia. Qed.

Lemma uint16_small x : 0 ≤ x < 65536 → uint16 x = x.
Proof. unfold uint16. apply Z.mod_small. Qed.

Lemma seconds_exact x :
  -9223372036 ≤ x ≤ 9223372036 → seconds x = x * 1000000000.
Proof.
  intros Hx. unfold seconds, wrap64, Second.
  rewrite Z.mod_small; lia.
Qed.

Lemma cmdRun_service_inr c svc :
  cmdRun_service c = inr svc →
  (String.prefix "http" (HealthcheckMode c) && String.eqb (HealthcheckURI c) "" = false)
  ∧ svcPort svc = uint16 (Port c)
  ∧ svcTargetPort svc =
      (if uint16 (TargetPort c) =? 0 then uint16 (Port c) else uint16 (TargetPort c))
  ∧ hcPort (svcHealthcheck svc) =
      (if uint16 (HealthcheckPort c) =? 0 then svcTargetPort svc
       else uint16 (HealthcheckPort c))
  ∧ hcMode (svcHealthcheck svc) = HealthcheckMode c
  ∧ hcURI (svcHealthcheck svc) = HealthcheckURI c
  ∧ hcInterval (svcHealthcheck svc) = seconds (HealthcheckInterval c)
  ∧ hcTimeout (svcHealthcheck svc) = seconds (HealthcheckTimeout c).
Proof.
  unfold cmdRun_service. simpl.
  destruct (String.prefix "http" (HealthcheckMode c)
            && String.eqb (HealthcheckURI c) ""); [done|].
  intros [= <-]. split; [done|].
  destruct (uint16 (TargetPort c) =? 0) eqn:Et; simpl;
    destruct (uint16 (HealthcheckPort c) =? 0) eqn:Eh; simpl; by rewrite ?Et.
Qed.

End NLBFacts.

(** X23: the ports of the service. Whatever the flags hold, the three
    ports of the service that is built are in the range of a port number;
    the target port is zero only when the service port is zero, and the
    healthcheck port is zero only when the target port is zero. When the
    flags for the target port and the healthcheck port are left at zero,
    both ports are the service port. *)
Theorem X23_service_ports (c : NLB.nlbServiceAddCmd) (svc : NLB.Service) :
  NLB.cmdRun_service c = inr svc →
  (0 ≤ NLB.svcPort svc < 65536
   ∧ 0 ≤ NLB.svcTargetPort svc < 65536
   ∧ 0 ≤ NLB.hcPort (NLB.svcHealthcheck svc) < 65536)
  ∧ (NLB.svcTargetPort svc = 0 → NLB.svcPort svc = 0)
  ∧ (NLB.hcPort (NLB.svcHealthcheck svc) = 0 → NLB.svcTargetPort svc = 0)
  ∧ (NLB.TargetPort c = 0 → NLB.HealthcheckPort c = 0 →
     NLB.svcTargetPort svc = NLB.svcPort svc
     ∧ NLB.hcPort (NLB.svcHealthcheck svc) = NLB.svcPort svc).
Proof.
  intros (_ & Hp & Ht & Hh & _)%cmdRun_service_inr.
  pose proof (uint16_range (NLB.Port c)).
  pose proof (uint16_range (NLB.TargetPort c)).
  pose proof (uint16_range (NLB.HealthcheckPort c)).
  rewrite Hh, Ht, Hp.
  destruct (Z.eqb_spec (NLB.uint16 (NLB.TargetPort c)) 0) as [Et|Et];
    destruct (Z.eqb_spec (NLB.uint16 (NLB.HealthcheckPort c)) 0) as [Eh|Eh].
  all: split; [lia|]; split; [lia|]; split; [lia|].
  all: intros Hzt Hzh; rewrite ?Hzt, ?Hzh in *.
  all: change (NLB.uint16 0) with 0 in *; done.
Qed.

Lemma X23_witness :
  ∃ svc, NLB.cmdRun_service (NLB.with_port 443 NLB.defaults) = inr svc
         ∧ NLB.svcTargetPort svc = 443
         ∧ NLB.hcPort (NLB.svcHealthcheck svc) = 443.
Proof.
  eexists. split; [reflexivity|].
  destruct (X23_service_ports (NLB.with_port 443 NLB.defaults) _ eq_refl)
    as (_ & _ & _ & Hdef).
  exact (Hdef eq_refl eq_refl).
Defined.

(** X24: the port flags are not checked against the range of a port
    number: a service port raised by any multiple of 65536 builds the same
    service (or the same error). *)
Theorem X24_port_wraps_around (c : NLB.nlbServiceAddCmd) (n : Z) :
  NLB.cmdRun_service (NLB.with_port (NLB.Port c + 65536 * n) c)
    = NLB.cmdRun_service (NLB.with_port (NLB.Port c) c).
Proof.
  unfold NLB.cmdRun_service. simpl.
  replace (NLB.uint16 (NLB.Port c + 65536 * n)) with (NLB.uint16 (NLB.Port c));
    [done|].
  unfold NLB.uint16. by rewrite Z.mul_comm, Z.mod_add.
Qed.

(** X25: the healthcheck URI. The command fails, before any call to the
    API, exactly when the healthcheck mode starts with http and no URI is
    given; a service that is built in such a mode has a URI. *)
Theorem X25_healthcheck_uri_required (c : NLB.nlbServiceAddCmd) :
  (NLB.cmdRun_service c = inl NLB.uri_required
   ↔ String.prefix "http" (NLB.HealthcheckMode c) = true
     ∧ NLB.HealthcheckURI c = ""%string)
  ∧ (∀ e, NLB.cmdRun_service c = inl e → e = NLB.uri_required)
  ∧ (∀ svc, NLB.cmdRun_service c = inr svc →
       String.prefix "http" (NLB.hcMode (NLB.svcHealthcheck svc)) = true →
       NLB.hcURI (NLB.svcHealthcheck svc) ≠ ""%string).
Proof.
  split; [|split].
  - unfold NLB.cmdRun_service. simpl.
    destruct (String.prefix "http" (NLB.HealthcheckMode c)); simpl.
    + destruct (String.eqb_spec (NLB.HealthcheckURI c) ""); split;
        try done; by intros [_ ?].
    + split; [done | by intros [? _]].
  - intros e. unfold NLB.cmdRun_service. simpl.
    destruct (_ && _); [by intros [= <-] | done].
  - intros svc (Hok & _ & _ & _ & Hm & Hu & _)%cmdRun_service_inr.
    rewrite Hm, Hu. intros Hpre Huri. by rewrite Hpre, Huri in Hok.
Qed.

(** X26: the durations. For a number of seconds up to 9223372036 in
    absolute value, the interval and the timeout of the service are that
    number of seconds in nanoseconds; the product wraps around the int64
    range beyond. *)
Theorem X26_durations_in_nanoseconds (c : NLB.nlbServiceAddCmd) (svc : NLB.Service) :
  NLB.cmdRun_service c = inr svc →
  (-9223372036 ≤ NLB.HealthcheckInterval c ≤ 9223372036 →
     NLB.hcInterval (NLB.svcHealthcheck svc)
       = NLB.HealthcheckInterval c * 1000000000)
  ∧ (-9223372036 ≤ NLB.HealthcheckTimeout c ≤ 9223372036 →
     NLB.hcTimeout (NLB.svcHealthcheck svc)
       = NLB.HealthcheckTimeout c * 1000000000)
  ∧ - 2 ^ 63 ≤ NLB.hcInterval (NLB.svcHealthcheck svc) < 2 ^ 63
  ∧ - 2 ^ 63 ≤ NLB.hcTimeout (NLB.svcHealthcheck svc) < 2 ^ 63.
Proof.
  intros (_ & _ & _ & _ & _ & _ & -> & ->)%cmdRun_service_inr.
  repeat split; try (intros ?; by apply seconds_exact).
  all: unfold NLB.seconds, NLB.wrap64;
    match goal with
    | |- context [?x mod 2 ^ 64] =>
        pose proof (Z.mod_pos_bound x (2 ^ 64) ltac:(lia))
    end; lia.
Qed.

Lemma X25_witness :
  NLB.cmdRun_service
    {| NLB.NetworkLoadBalancer := "lb"; NLB.Name := "web"; NLB.Description := "";
       NLB.HealthcheckInterval := 10; NLB.HealthcheckMode := "https";
       NLB.HealthcheckPort := 0; NLB.HealthcheckRetries := 1;
       NLB.HealthcheckTLSSNI := ""; NLB.HealthcheckTimeout := 5;
       NLB.HealthcheckURI := ""; NLB.InstancePool := "pool"; NLB.Port := 443;
       NLB.Protocol := "tcp"; NLB.Strategy := "round-robin";
       NLB.TargetPort := 0; NLB.Zone := "ch-gva-2" |}
  = inl NLB.uri_required.
Proof.
  apply (proj1 (X25_healthcheck_uri_required _)). by split.
Defined.

Lemma X26_witness :
  ∃ svc, NLB.cmdRun_service NLB.defaults = inr svc
         ∧ NLB.hcInterval (NLB.svcHealthcheck svc) = 10000000000
         ∧ NLB.hcTimeout (NLB.svcHealthcheck svc) = 5000000000.
Proof.
  eexists. split; [reflexivity|].
  destruct (X26_durations_in_nanoseconds NLB.defaults _ eq_refl)
    as (Hi & Ht & _).
  split; [apply Hi | apply Ht]; by vm_compute.
Defined.

(** ** sks nodepool show *)

Section SKSFacts.

Import SKS.

Lemma matches_true n np :
  matches n np = Some true → ID n = Some np ∨ Name n = Some np.
Proof.
  unfold matches. destruct (ID n) as [i|]; [|done].
  destruct (String.eqb_spec i np) as [->|_]; [by left|].
  destruct (Name n) as [m|]; [|done].
  destruct (String.eqb_spec m np) as [->|_]; [by right | done].
Qed.

Lemma matches_false n np :
  matches n np = Some false ↔
  ∃ i m, ID n = Some i ∧ Name n = Some m ∧ i ≠ np ∧ m ≠ np.
Proof.
  unfold matches. split.
  - destruct (ID n) as [i|]; [|done].
    destruct (String.eqb_spec i np) as [|Hi]; [done|].
    destruct (Name n) as [m|]; [|done].
    destruct (String.eqb_spec m np) as [|Hm]; [done|].
    intros _. by exists i, m.
  - intros (i & m & -> & -> & Hi & Hm).
    destruct (String.eqb_spec i np); [done|].
    by destruct (String.eqb_spec m np).
Qed.

Lemma matches_None n np :
  matches n np = None ↔
  ID n = None ∨ (ID n ≠ Some np ∧ Name n = None).
Proof.
  unfold matches. destruct (ID n) as [i|].
  - destruct (String.eqb_spec i np) as [->|Hi].
    + split; [done|]. by intros [? | [? _]].
    + destruct (Name n) as [m|].
      * split; [done|]. by intros [? | [_ ?]].
      * split; [intros _|done]. right. split; [congruence | done].
  - split; [by left | done].
Qed.

End SKSFacts.

(** X27: the Nodepool that is shown is the first of the cluster whose ID or
    whose name is the argument: it is in the list, it bears the argument as
    ID or as name, and every Nodepool before it has an ID and a name that
    both differ from the argument. *)
Theorem X27_first_matching_nodepool (nodepools : list SKS.SKSNodepool)
    (np : string) (n : SKS.SKSNodepool) :
  SKS.find_nodepool nodepools np = SKS.Found n →
  ∃ before after,
    nodepools = before ++ n :: after
    ∧ (SKS.ID n = Some np ∨ SKS.Name n = Some np)
    ∧ Forall (λ m, ∃ i nm, SKS.ID m = Some i ∧ SKS.Name m = Some nm
                           ∧ i ≠ np ∧ nm ≠ np) before.
Proof.
  induction nodepools as [|m nodepools IH]; [done|]. simpl.
  destruct (SKS.matches m np) as [[|]|] eqn:E; [| |done].
  - intros [= <-]. exists [], nodepools. split; [done|].
    split; [by apply matches_true | constructor].
  - intros (before & after & -> & Hn & Hall)%IH.
    exists (m :: before), after. split; [done|]. split; [done|].
    constructor; [by apply matches_false | done].
Qed.

Lemma X27_witness :
  let named := {| SKS.ID := Some "0001"%string; SKS.Name := Some "0002"%string;
                  SKS.Size := 3 |} in
  let identified := {| SKS.ID := Some "0002"%string; SKS.Name := Some "workers"%string;
                       SKS.Size := 5 |} in
  ∃ before after, [named; identified] = before ++ named :: after.
Proof.
  intros named identified.
  destruct (X27_first_matching_nodepool [named; identified] "0002" named eq_refl)
    as (before & after & Heq & _).
  by exists before, after.
Defined.

(** X28: the search ends with the error Nodepool not found exactly when
    every Nodepool of the cluster has an ID and a name and none of them is
    the argument; on a cluster without Nodepools it always does. *)
Theorem X28_nodepool_not_found (nodepools : list SKS.SKSNodepool) (np : string) :
  SKS.find_nodepool nodepools np = SKS.NotFound ↔
  Forall (λ m, ∃ i nm, SKS.ID m = Some i ∧ SKS.Name m = Some nm
                       ∧ i ≠ np ∧ nm ≠ np) nodepools.
Proof.
  induction nodepools as [|m nodepools IH]; [by split; [constructor|]|].
  simpl. rewrite Forall_cons, <- matches_false, <- IH.
  destruct (SKS.matches m np) as [[|]|]; split; try done; by intros [? ?].
Qed.

(** X29: reading through a nil pointer. The search panics exactly when,
    before any Nodepool that matches, there is one without ID, or one
    whose ID is not the argument and that has no name. *)
Theorem X29_nodepool_search_panics (nodepools : list SKS.SKSNodepool) (np : string) :
  SKS.find_nodepool nodepools np = SKS.Panic ↔
  ∃ before m after,
    nodepools = before ++ m :: after
    ∧ Forall (λ m, ∃ i nm, SKS.ID m = Some i ∧ SKS.Name m = Some nm
                           ∧ i ≠ np ∧ nm ≠ np) before
    ∧ (SKS.ID m = None ∨ (SKS.ID m ≠ Some np ∧ SKS.Name m = None)).
Proof.
  setoid_rewrite <- matches_false. setoid_rewrite <- matches_None.
  induction nodepools as [|m nodepools IH].
  - split; [done|]. intros (before & m & after & Heq & _).
    by destruct before.
  - simpl. destruct (SKS.matches m np) as [[|]|] eqn:E.
    + split; [done|]. intros (before & m' & after & Heq & Hall & Hm').
      destruct before as [|b before]; simplify_eq/=.
      apply Forall_cons in Hall as [Hb _]. congruence.
    + rewrite IH. split.
      * intros (before & m' & after & -> & Hall & Hm').
        exists (m :: before), m', after. split; [done|]. split; [|done].
        by constructor.
      * intros (before & m' & after & Heq & Hall & Hm').
        destruct before as [|b before]; simplify_eq/=.
        apply Forall_cons in Hall as [_ Hall]. by exists before, m', after.
    + split; [intros _|done]. exists [], m, nodepools. split; [done|].
      split; [constructor | done].
Qed.

Lemma X28_witness :
  SKS.find_nodepool
    [{| SKS.ID := Some "0001"%string; SKS.Name := Some "workers"%string;
        SKS.Size := 3 |}] "gpu"
  = SKS.NotFound.
Proof.
  apply (proj2 (X28_nodepool_not_found _ "gpu")).
  repeat constructor. by exists "0001"%string, "workers"%string.
Defined.

Lemma X29_witness :
  SKS.find_nodepool
    [{| SKS.ID := Some "0001"%string; SKS.Name := None; SKS.Size := 3 |};
     {| SKS.ID := Some "0002"%string; SKS.Name := Some "gpu"%string;
        SKS.Size := 1 |}] "gpu"
  = SKS.Panic.
Proof.
  apply (proj2 (X29_nodepool_search_panics _ "gpu")).
  eexists [], _, _. split; [reflexivity|]. split; [constructor|].
  right. by split.
Defined.
